(** * Voice pipeline core: energy VAD, speech adapters, session registry

    A shallow embedding of [backend/speech_client.py] and
    [backend/session.py], followed by the properties proved about them.

    Conventions of the embedding.
    - Python [float] is IEEE binary64, i.e. Rocq's primitive [float]; [+],
      [/] and the comparisons are the primitive operations, so every
      computation below rounds exactly as the interpreter does.
    - Python [int] is unbounded: [Z].
    - [bytes] is [list byte]; [str] is [string], each character read as a
      code point below 256.
    - A computation that may raise is an [option]: [None] stands for a
      propagating exception.
    - Mutable objects ([self]) are records passed explicitly; the event
      channel a stream writes to is a field holding what was sent so far.
    - Wall-clock readings ([time.time()], [datetime.now()]) and the network
      are inputs of the functions that consult them.
    - Logging calls are not modelled. *)

From Stdlib Require Import ZArith List Bool Lia.
From Stdlib Require Import Floats.PrimFloat Uint63 Strings.Byte Strings.Ascii.
From stdpp Require Import gmap strings pretty.

Set Warnings "-register-all".
Local Open Scope Z_scope.

(* ===================================================================== *)
(** * Python primitives used by the sources *)
(* ===================================================================== *)

Module Py.

(** A computation that may raise. *)
Definition exc (A : Type) : Type := option A.

(** Truth value of a [float]: everything but [0.0] and [-0.0]. *)
Definition float_truthy (x : float) : bool := negb (PrimFloat.eqb x 0%float).

(** [float(z)] for an [int] in the 63-bit range the audio fields live in. *)
Definition Z_to_float (z : Z) : float :=
  if z <? 0 then PrimFloat.opp (of_uint63 (Uint63.of_Z (- z)))
  else of_uint63 (Uint63.of_Z z).

(** [a / b] on two [int]s: true division, [ZeroDivisionError] on [b = 0].
    The quotient is the interpreter's for operands below 2^53 in
    magnitude, which [float] holds exactly; larger operands, and the
    [OverflowError] of a quotient too large for a [float], are outside
    this definition. *)
Definition truediv (a b : Z) : exc float :=
  if b =? 0 then None else Some (PrimFloat.div (Z_to_float a) (Z_to_float b)).

(** One native (little-endian) signed 16-bit sample. *)
Definition int16_le (lo hi : byte) : Z :=
  let u := Z.of_N (Byte.to_N lo) + 256 * Z.of_N (Byte.to_N hi) in
  if u <? 32768 then u else u - 65536.

(** [memoryview(raw).cast("h")]: [TypeError] unless the length is a
    multiple of the item size. *)
Fixpoint cast_h (raw : list byte) : exc (list Z) :=
  match raw with
  | [] => Some []
  | [_] => None
  | lo :: hi :: rest =>
      match cast_h rest with
      | Some view => Some (int16_le lo hi :: view)
      | None => None
      end
  end.

(** [max(xs)]: [ValueError] on an empty sequence. *)
Definition max_of (xs : list Z) : exc Z :=
  match xs with
  | [] => None
  | x :: rest => Some (fold_left Z.max rest x)
  end.

(** Truth value of a [str]. *)
Definition str_truthy (s : string) : bool :=
  match s with EmptyString => false | String _ _ => true end.

(** [str.isspace] on one code point below 256. *)
Definition is_space (c : ascii) : bool :=
  let n := N_of_ascii c in
  (((9 <=? n) && (n <=? 13)) || ((28 <=? n) && (n <=? 32))
   || (n =? 133) || (n =? 160))%N.

Fixpoint lstrip (s : list ascii) : list ascii :=
  match s with
  | [] => []
  | c :: rest => if is_space c then lstrip rest else s
  end.

(** [s.strip()] *)
Definition strip (s : string) : string :=
  String.string_of_list_ascii
    (rev (lstrip (rev (lstrip (String.list_ascii_of_string s))))).

(** What [strip] does to the characters of a string. *)
Definition strip_chars (l : list ascii) : list ascii :=
  rev (lstrip (rev (lstrip l))).

(** [s.rstrip(c)] for a one-character [c], on the characters of [s]
    from the right. *)
Fixpoint lstrip_char (c : ascii) (s : list ascii) : list ascii :=
  match s with
  | [] => []
  | x :: rest => if Ascii.eqb x c then lstrip_char c rest else s
  end.

Definition rstrip_char (c : ascii) (s : string) : string :=
  String.string_of_list_ascii
    (rev (lstrip_char c (rev (String.list_ascii_of_string s)))).

(** [str.lower] on one code point below 256: the letters A-Z and the
    accented capitals U+00C0-U+00DE, the multiplication sign apart. *)
Definition lower_char (c : ascii) : ascii :=
  let n := N_of_ascii c in
  if (((65 <=? n) && (n <=? 90))
      || ((192 <=? n) && (n <=? 222) && negb (n =? 215)))%N
  then ascii_of_N (n + 32)
  else c.

(** [s.lower()] *)
Definition lower (s : string) : string :=
  String.string_of_list_ascii (map lower_char (String.list_ascii_of_string s)).

(** [s.replace(a, b)] for one-character [a] and [b]. *)
Definition replace_char (a b : ascii) (s : string) : string :=
  String.string_of_list_ascii
    (map (fun x => if Ascii.eqb x a then b else x)
       (String.list_ascii_of_string s)).

End Py.

(* ===================================================================== *)
(** * The energy voice-activity detector ([SimpleEnergyVAD]) *)
(* ===================================================================== *)

Module Vad.
Import Py.

(** The attributes the detector reads off a frame, as values: [duration]
    is what reading [frame.duration] returned. A frame object before its
    attributes are read, whose [duration] is computed on each read and may
    raise, is a [FrameObject] below. *)
Record AudioFrame : Type := {
  data : list byte;
  sample_rate : Z;
  num_channels : Z;
  samples_per_channel : Z;
  duration : float
}.

Inductive VADEventType : Type := START_OF_SPEECH | END_OF_SPEECH.

Record VADEvent : Type := {
  type : VADEventType;
  samples_index : Z;
  timestamp : float;
  speech_duration : float;
  silence_duration : float;
  frames : list AudioFrame
}.

(** [SimpleEnergyVAD]: the three tunables. *)
Record SimpleEnergyVAD : Type := {
  vad_threshold : Z;
  vad_min_speech_duration : float;
  vad_silence_timeout : float
}.

(** [_SimpleEnergyVADStream]: the attributes of [self], and [_event_ch] as
    the list of events sent so far (oldest first). *)
Record VADStream : Type := {
  _threshold : Z;
  _min_speech_duration : float;
  _silence_timeout : float;
  _speech_frames : list AudioFrame;
  _pending_frames : list AudioFrame;
  _pending_duration : float;
  _speech_duration : float;
  _silence_accumulated : float;
  _speech_started : bool;
  _speech_start_index : Z;
  _samples_index : Z;
  _event_ch : list VADEvent
}.

(** [SimpleEnergyVAD.stream] followed by the stream's [__init__]. *)
Definition stream (vad : SimpleEnergyVAD) : VADStream :=
  {| _threshold := vad_threshold vad;
     _min_speech_duration := vad_min_speech_duration vad;
     _silence_timeout := vad_silence_timeout vad;
     _speech_frames := [];
     _pending_frames := [];
     _pending_duration := 0%float;
     _speech_duration := 0%float;
     _silence_accumulated := 0%float;
     _speech_started := false;
     _speech_start_index := 0;
     _samples_index := 0;
     _event_ch := [] |}.

(** [_frame_amplitude] *)
Definition _frame_amplitude (frame : AudioFrame) : exc Z :=
  let raw := data frame in
  if (match raw with [] => true | _ => false end
      || (Z.of_nat (length raw) <? 2))%bool
  then Some 0
  else
    let raw :=
      if negb (Z.of_nat (length raw) mod 2 =? 0)
      then firstn (length raw - 1) raw
      else raw in
    match cast_h raw with
    | None => None
    | Some view =>
        match view with
        | [] => Some 0
        | _ => max_of (map Z.abs view)
        end
    end.

(** The [duration] local of [_process_frame]:
    [frame.duration or (frame.samples_per_channel / frame.sample_rate
                        if frame.sample_rate else 0.0)],
    from the value the read of [frame.duration] returned; the read itself,
    which can raise, is [duration_property] below. *)
Definition frame_duration (frame : AudioFrame) : exc float :=
  if float_truthy (duration frame) then Some (duration frame)
  else if negb (sample_rate frame =? 0)
       then truediv (samples_per_channel frame) (sample_rate frame)
       else Some 0%float.

(** [_start_speech]; [now] is the reading of [time.time()]. *)
Definition _start_speech (now : float) (self : VADStream) : VADStream :=
  {| _threshold := _threshold self;
     _min_speech_duration := _min_speech_duration self;
     _silence_timeout := _silence_timeout self;
     _speech_frames := _pending_frames self;
     _pending_frames := [];
     _pending_duration := 0%float;
     _speech_duration := _pending_duration self;
     _silence_accumulated := _silence_accumulated self;
     _speech_started := true;
     _speech_start_index := _samples_index self;
     _samples_index := _samples_index self;
     _event_ch :=
       _event_ch self ++
       [ {| type := START_OF_SPEECH;
            samples_index := _samples_index self;
            timestamp := now;
            speech_duration := 0%float;
            silence_duration := 0%float;
            frames := _pending_frames self |} ] |}.

(** [_emit_end] *)
Definition _emit_end (now : float) (self : VADStream) : VADStream :=
  if negb (_speech_started self) then self
  else
    {| _threshold := _threshold self;
       _min_speech_duration := _min_speech_duration self;
       _silence_timeout := _silence_timeout self;
       _speech_frames := [];
       _pending_frames := [];
       _pending_duration := 0%float;
       _speech_duration := 0%float;
       _silence_accumulated := 0%float;
       _speech_started := false;
       _speech_start_index := _speech_start_index self;
       _samples_index := _samples_index self;
       _event_ch :=
         _event_ch self ++
         [ {| type := END_OF_SPEECH;
              samples_index := _speech_start_index self;
              timestamp := now;
              speech_duration := _speech_duration self;
              silence_duration := _silence_accumulated self;
              frames := _speech_frames self |} ] |}.

(** Attribute assignments of [_process_frame], one setter per statement. *)
Definition set_silence_accumulated (x : float) (self : VADStream) :=
  {| _threshold := _threshold self;
     _min_speech_duration := _min_speech_duration self;
     _silence_timeout := _silence_timeout self;
     _speech_frames := _speech_frames self;
     _pending_frames := _pending_frames self;
     _pending_duration := _pending_duration self;
     _speech_duration := _speech_duration self;
     _silence_accumulated := x;
     _speech_started := _speech_started self;
     _speech_start_index := _speech_start_index self;
     _samples_index := _samples_index self;
     _event_ch := _event_ch self |}.

Definition append_speech (frame : AudioFrame) (d : float) (self : VADStream) :=
  {| _threshold := _threshold self;
     _min_speech_duration := _min_speech_duration self;
     _silence_timeout := _silence_timeout self;
     _speech_frames := _speech_frames self ++ [frame];
     _pending_frames := _pending_frames self;
     _pending_duration := _pending_duration self;
     _speech_duration := PrimFloat.add (_speech_duration self) d;
     _silence_accumulated := _silence_accumulated self;
     _speech_started := _speech_started self;
     _speech_start_index := _speech_start_index self;
     _samples_index := _samples_index self;
     _event_ch := _event_ch self |}.

Definition append_pending (frame : AudioFrame) (d : float) (self : VADStream) :=
  {| _threshold := _threshold self;
     _min_speech_duration := _min_speech_duration self;
     _silence_timeout := _silence_timeout self;
     _speech_frames := _speech_frames self;
     _pending_frames := _pending_frames self ++ [frame];
     _pending_duration := PrimFloat.add (_pending_duration self) d;
     _speech_duration := _speech_duration self;
     _silence_accumulated := _silence_accumulated self;
     _speech_started := _speech_started self;
     _speech_start_index := _speech_start_index self;
     _samples_index := _samples_index self;
     _event_ch := _event_ch self |}.

Definition advance_samples (n : Z) (self : VADStream) :=
  {| _threshold := _threshold self;
     _min_speech_duration := _min_speech_duration self;
     _silence_timeout := _silence_timeout self;
     _speech_frames := _speech_frames self;
     _pending_frames := _pending_frames self;
     _pending_duration := _pending_duration self;
     _speech_duration := _speech_duration self;
     _silence_accumulated := _silence_accumulated self;
     _speech_started := _speech_started self;
     _speech_start_index := _speech_start_index self;
     _samples_index := _samples_index self + n;
     _event_ch := _event_ch self |}.

(** The branches of [_process_frame] once [amplitude] and [duration] are
    known; the result pairs the stream with the [silence_exceeded] flag. *)
Definition classify (now : float) (self : VADStream) (frame : AudioFrame)
    (amplitude : Z) (d : float) : VADStream * bool :=
  if _threshold self <=? amplitude then
    let self := set_silence_accumulated 0%float self in
    if _speech_started self then (append_speech frame d self, false)
    else
      let self := append_pending frame d self in
      if PrimFloat.leb (_min_speech_duration self) (_pending_duration self)
      then (_start_speech now self, false)
      else (self, false)
  else
    if _speech_started self then
      let self :=
        set_silence_accumulated
          (PrimFloat.add (_silence_accumulated self) d) self in
      (self, PrimFloat.leb (_silence_timeout self) (_silence_accumulated self))
    else (self, false).

(** The end of [_process_frame]: count the samples, then close the segment
    if the flag is set. *)
Definition conclude (now : float) (frame : AudioFrame)
    (classified : VADStream * bool) : VADStream :=
  let self := advance_samples (samples_per_channel frame) (fst classified) in
  if snd classified then _emit_end now self else self.

(** [_process_frame] *)
Definition _process_frame (now : float) (self : VADStream)
    (frame : AudioFrame) : exc VADStream :=
  match _frame_amplitude frame with
  | None => None
  | Some amplitude =>
      match frame_duration frame with
      | None => None
      | Some d => Some (conclude now frame (classify now self frame amplitude d))
      end
  end.

(** What the input channel delivers. *)
Inductive chunk : Type :=
| Frame (frame : AudioFrame)
| FlushSentinel.

(** The body of the [async for] of [_main_task] on one chunk. *)
Definition handle_chunk (now : float) (self : VADStream) (c : chunk)
    : exc VADStream :=
  match c with
  | FlushSentinel =>
      Some (if _speech_started self then _emit_end now self else self)
  | Frame frame => _process_frame now self frame
  end.

(** The [async for] loop over the chunks received until the channel closes;
    each chunk comes with the clock reading taken while it is handled. *)
Fixpoint main_loop (self : VADStream) (input : list (float * chunk))
    : exc VADStream :=
  match input with
  | [] => Some self
  | (now, c) :: rest =>
      match handle_chunk now self c with
      | None => None
      | Some self => main_loop self rest
      end
  end.

(** [_main_task]: the loop, then the [finally] clause at time [t_close]. *)
Definition _main_task (self : VADStream) (input : list (float * chunk))
    (t_close : float) : exc VADStream :=
  match main_loop self input with
  | None => None
  | Some self =>
      Some (if _speech_started self then _emit_end t_close self else self)
  end.

(** ** Vocabulary for the statements *)

(** The amplitude and duration [_process_frame] works with (see
    [frame_amplitude_total] and [frame_duration_total]). *)
Definition amplitude_of (frame : AudioFrame) : Z :=
  default 0 (_frame_amplitude frame).

Definition duration_of (frame : AudioFrame) : float :=
  default 0%float (frame_duration frame).

Definition voiced (self : VADStream) (frame : AudioFrame) : Prop :=
  _threshold self <= amplitude_of frame.

Definition silent (self : VADStream) (frame : AudioFrame) : Prop :=
  amplitude_of frame < _threshold self.

(** Durations added one frame at a time onto [start], in frame order. *)
Definition add_durations (start : float) (fs : list AudioFrame) : float :=
  fold_left (fun acc f => PrimFloat.add acc (duration_of f)) fs start.

(** The sum of the durations of [fs], accumulated from [0.0]. *)
Definition sum_durations (fs : list AudioFrame) : float :=
  add_durations 0%float fs.

(** Samples carried by one chunk, and by a whole input. *)
Definition chunk_samples (c : chunk) : Z :=
  match c with
  | Frame f => samples_per_channel f
  | FlushSentinel => 0
  end.

Definition total_samples (input : list (float * chunk)) : Z :=
  fold_right (fun tc acc => chunk_samples (snd tc) + acc) 0 input.

(** A run of frames as channel input. *)
Definition as_input (fs : list (float * AudioFrame)) : list (float * chunk) :=
  map (fun tf => (fst tf, Frame (snd tf))) fs.

(** [Idle]: no open segment and no candidate. *)
Definition idle (self : VADStream) : Prop :=
  _speech_started self = false /\
  _speech_frames self = [] /\ _pending_frames self = [] /\
  _speech_duration self = 0%float /\ _pending_duration self = 0%float /\
  _silence_accumulated self = 0%float.

(** Both duration counters are the sums of the frames they stand for, both
    buffers hold voiced frames only, and while a segment is open the last
    event sent is its Start-of-Speech, whose index the stream keeps, and
    the candidate buffer is empty. *)
Definition consistent (self : VADStream) : Prop :=
  _speech_duration self = sum_durations (_speech_frames self) /\
  _pending_duration self = sum_durations (_pending_frames self) /\
  Forall (voiced self) (_speech_frames self) /\
  Forall (voiced self) (_pending_frames self) /\
  (_speech_started self = true ->
   exists sent e, _event_ch self = sent ++ [e] /\
     type e = START_OF_SPEECH /\
     samples_index e = _speech_start_index self /\
     _pending_frames self = []).

(** A closed segment as the channel shows it: a Start-of-Speech [s] and
    the End-of-Speech [e] that answers it. *)
Definition closed_segment (threshold : Z) (s e : VADEvent) : Prop :=
  type s = START_OF_SPEECH /\
  type e = END_OF_SPEECH /\
  samples_index e = samples_index s /\
  (exists more, frames e = frames s ++ more) /\
  speech_duration e = sum_durations (frames e) /\
  Forall (fun f => threshold <= amplitude_of f) (frames e).

(** The events of a list of closed segments, in order. *)
Definition segment_events (pairs : list (VADEvent * VADEvent))
    : list VADEvent :=
  flat_map (fun p => [fst p; snd p]) pairs.

(** The channel of a stream is a list of closed segments, followed by the
    Start-of-Speech of the open segment when there is one. *)
Definition segmented (self : VADStream) : Prop :=
  exists pairs,
    Forall (fun p => closed_segment (_threshold self) (fst p) (snd p)) pairs /\
    if _speech_started self
    then exists s,
           _event_ch self = segment_events pairs ++ [s] /\
           type s = START_OF_SPEECH /\
           samples_index s = _speech_start_index self /\
           (exists more, _speech_frames self = frames s ++ more)
    else _event_ch self = segment_events pairs.

(** [n] Start/End pairs, then a Start if a segment is [open]. *)
Definition alternation (n : nat) (open : bool) : list VADEventType :=
  concat (repeat [START_OF_SPEECH; END_OF_SPEECH] n)
  ++ if open then [START_OF_SPEECH] else [].

(** A chunk that is a flush or a frame below the threshold. *)
Definition quiet_chunk (threshold : Z) (c : chunk) : Prop :=
  match c with
  | Frame f => amplitude_of f < threshold
  | FlushSentinel => True
  end.

(** The frames of an input that are at or above the threshold, in the
    order received. *)
Definition voiced_frames (threshold : Z) (input : list (float * chunk))
    : list AudioFrame :=
  flat_map
    (fun tc =>
       match snd tc with
       | Frame f => if threshold <=? amplitude_of f then [f] else []
       | FlushSentinel => []
       end)
    input.

(** What the two buffers of a stream hold together. *)
Definition buffered (self : VADStream) : list AudioFrame :=
  _speech_frames self ++ _pending_frames self.

(** Only one of the two buffers is in use at a time. *)
Definition exclusive (self : VADStream) : Prop :=
  if _speech_started self
  then _pending_frames self = []
  else _speech_frames self = [].


(** The largest magnitude among samples, [0] when there are none. *)
Definition peak (samples : list Z) : Z :=
  fold_right (fun x m => Z.max (Z.abs x) m) 0 samples.

(** ** A frame before its attributes are read *)

(** The four constructor arguments of an [rtc.AudioFrame]. Its
    [duration] is a property, [samples_per_channel / sample_rate],
    evaluated on each read. *)
Record FrameObject : Type := {
  obj_data : list byte;
  obj_sample_rate : Z;
  obj_num_channels : Z;
  obj_samples_per_channel : Z
}.


(** Reading [frame.duration]: [ZeroDivisionError] at a zero rate. *)
Definition duration_property (o : FrameObject) : exc float :=
  truediv (obj_samples_per_channel o) (obj_sample_rate o).

(** The attribute values [_process_frame] gets from a frame object; the
    read of [frame.duration] on its second line is the one that can
    raise. *)
Definition attributes_of (o : FrameObject) : exc AudioFrame :=
  match duration_property o with
  | None => None
  | Some d =>
      Some {| data := obj_data o;
              sample_rate := obj_sample_rate o;
              num_channels := obj_num_channels o;
              samples_per_channel := obj_samples_per_channel o;
              duration := d |}
  end.

(** [_process_frame] called on a frame object. *)
Definition process_frame_object (now : float) (self : VADStream)
    (o : FrameObject) : exc VADStream :=
  match attributes_of o with
  | None => None
  | Some frame => _process_frame now self frame
  end.

(** ** Sample inputs *)

(** Threshold 500, 250 ms of speech to open a segment, 375 ms of silence
    to close it. *)
Definition sample_vad : SimpleEnergyVAD :=
  {| vad_threshold := 500;
     vad_min_speech_duration := 0.25%float;
     vad_silence_timeout := 0.375%float |}.

(** Four samples at 8 Hz, peak 800: half a second of speech. *)
Definition voiced_half : AudioFrame :=
  {| data := [x20; x03; x00; x00; xe0; xfc; x00; x00];
     sample_rate := 8; num_channels := 1; samples_per_channel := 4;
     duration := 0.5%float |}.

(** Two samples at 8 Hz: a quarter second, voiced or quiet. *)
Definition voiced_quarter : AudioFrame :=
  {| data := [x20; x03; x00; x00];
     sample_rate := 8; num_channels := 1; samples_per_channel := 2;
     duration := 0.25%float |}.

(** One sample at 8 Hz, peak 800: an eighth of a second of speech. *)
Definition voiced_eighth : AudioFrame :=
  {| data := [x20; x03];
     sample_rate := 8; num_channels := 1; samples_per_channel := 1;
     duration := 0.125%float |}.

Definition quiet_quarter : AudioFrame :=
  {| data := [x00; x00; x01; x00];
     sample_rate := 8; num_channels := 1; samples_per_channel := 2;
     duration := 0.25%float |}.

(** Three bytes: one full-scale sample and a stray byte. *)
Definition odd_frame : AudioFrame :=
  {| data := [xff; x7f; x00];
     sample_rate := 8; num_channels := 1; samples_per_channel := 1;
     duration := 0.125%float |}.

(** No sample data at all. *)
Definition empty_frame : AudioFrame :=
  {| data := [];
     sample_rate := 8; num_channels := 1; samples_per_channel := 2;
     duration := 0.25%float |}.

(** A fresh stream after [voiced_half] arrived at time 1: speaking. *)
Definition speaking_sample : VADStream :=
  advance_samples 4
    (_start_speech 1%float
       (append_pending voiced_half 0.5%float
          (set_silence_accumulated 0%float (stream sample_vad)))).

(** Speech, then two quarter seconds of silence. *)
Definition overshoot_input : list (float * chunk) :=
  [ (1%float, Frame voiced_half);
    (2%float, Frame quiet_quarter);
    (3%float, Frame quiet_quarter) ].

(** Speech, a quiet frame, speech: the candidate outlives the quiet frame
    and the segment opens at the third frame. *)
Definition interrupted_input : list (float * chunk) :=
  [ (1%float, Frame voiced_eighth);
    (2%float, Frame quiet_quarter);
    (3%float, Frame voiced_eighth) ].

(** A fresh stream after [interrupted_input] and one more [voiced_eighth]
    at time 4: speaking, three voiced frames in the segment. *)
Definition interrupted_sample : VADStream :=
  advance_samples 1
    (append_speech voiced_eighth 0.125%float
       (set_silence_accumulated 0%float
          (advance_samples 1
             (_start_speech 3%float
                (append_pending voiced_eighth 0.125%float
                   (set_silence_accumulated 0%float
                      (advance_samples 2
                         (advance_samples 1
                            (append_pending voiced_eighth 0.125%float
                               (set_silence_accumulated 0%float
                                  (stream sample_vad))))))))))).


(** One sample and a sample rate of zero. *)
Definition zero_rate_object : FrameObject :=
  {| obj_data := [x00; x00]; obj_sample_rate := 0; obj_num_channels := 1;
     obj_samples_per_channel := 1 |}.


End Vad.

(* ===================================================================== *)
(** * The transcription adapter ([DrascomSTT]) *)
(* ===================================================================== *)

Module Stt.
Import Py.

(** A decoded response body ([Any]): what [response.json()] can return. *)
Inductive json : Type :=
| JNull
| JBool (b : bool)
| JNum (n : Z)
| JStr (s : string)
| JList (items : list json)
| JDict (entries : list (string * json)).

(** [body.get(key)]; a decoded object has each key once. *)
Fixpoint dict_get (entries : list (string * json)) (key : string)
    : option json :=
  match entries with
  | [] => None
  | (k, v) :: rest => if String.eqb k key then Some v else dict_get rest key
  end.

(** [body.get(key)] handed to a continuation, so that the recursive
    functions below can descend into the value found. *)
Definition with_entry {B : Type} (key : string) (found : json -> B)
    (absent : B) : list (string * json) -> B :=
  fix get (entries : list (string * json)) : B :=
    match entries with
    | [] => absent
    | (k, v) :: rest => if String.eqb k key then found v else get rest
    end.

(** [for x in xs: candidate = f(x); if candidate: return candidate] and
    falling out of the loop with nothing. *)
Definition first_candidate {A : Type} (f : A -> option string)
    : list A -> option string :=
  fix each (xs : list A) : option string :=
    match xs with
    | [] => None
    | x :: rest =>
        match f x with
        | Some candidate =>
            if str_truthy candidate then Some candidate else each rest
        | None => each rest
        end
    end.

(** [value = body.get(key); if isinstance(value, str) and value.strip():
    return value.strip()] for one key. *)
Definition text_at (entries : list (string * json)) (key : string)
    : option string :=
  match dict_get entries key with
  | Some (JStr value) =>
      if str_truthy (strip value) then Some (strip value) else None
  | _ => None
  end.

Definition text_keys : list string :=
  ["text"; "transcript"; "transcription"; "result"; "output"]%string.

Definition language_keys : list string :=
  ["language"; "lang"; "detected_language"]%string.

Definition list_keys : list string :=
  ["segments"; "alternatives"; "data"]%string.

(** [_extract_transcription] *)
Fixpoint _extract_transcription (body : json) : option string :=
  match body with
  | JStr s =>
      let text := strip s in
      if str_truthy text then Some text else None
  | JList parts => first_candidate _extract_transcription parts
  | JDict entries =>
      match first_candidate (text_at entries) text_keys with
      | Some text => Some text
      | None =>
          first_candidate
            (fun key =>
               with_entry key
                 (fun value =>
                    match value with
                    | JList items =>
                        first_candidate _extract_transcription items
                    | _ => None
                    end)
                 None entries)
            list_keys
      end
  | _ => None
  end.

(** [_extract_language] *)
Fixpoint _extract_language (body : json) : option string :=
  match body with
  | JDict entries =>
      match first_candidate (text_at entries) language_keys with
      | Some text => Some text
      | None =>
          first_candidate
            (fun key =>
               with_entry key
                 (fun value =>
                    match value with
                    | JList items => first_candidate _extract_language items
                    | _ => None
                    end)
                 None entries)
            list_keys
      end
  | _ => None
  end.

Definition SPEECH_STT_ENDPOINT : string := "/v1/audio/transcriptions".

Record DrascomSttOptions : Type := {
  base_url : string;
  model : string;
  language : option string;
  response_format : string;
  api_key : option string;
  timeout : float
}.

(** The multipart request of [_recognize_impl]. *)
Record Request : Type := {
  url : string;
  form : list (string * string);
  file : string * list byte * string;
  request_timeout : float
}.

(** An [httpx.Response]: [json_body] is [None] when [response.json()]
    raises [ValueError]. *)
Record Response : Type := {
  status_code : Z;
  headers : gmap string string;
  text : string;
  json_body : exc json
}.

(** What awaiting [client.post] can do. *)
Inductive HttpOutcome : Type :=
| Responded (response : Response)
| TimeoutException
| RequestError.

(** [response.raise_for_status()] lets exactly the 2xx codes through. *)
Definition is_success (response : Response) : bool :=
  (200 <=? status_code response) && (status_code response <=? 299).

Inductive APIError : Type :=
| APIStatusError (message : string) (code : Z)
    (request_id : option string) (body : string)
| APITimeoutError
| APIConnectionError.

Inductive SpeechEventType : Type := INTERIM_TRANSCRIPT | FINAL_TRANSCRIPT.

Record SpeechData : Type := {
  sd_text : string;
  sd_language : string
}.

Record SpeechEvent : Type := {
  se_type : SpeechEventType;
  se_request_id : string;
  alternatives : list SpeechData;
  recognition_usage : float
}.

(** [a or b or ... or ""] over optional strings. *)
Fixpoint first_truthy (candidates : list (option string)) : string :=
  match candidates with
  | [] => ""
  | Some s :: rest => if str_truthy s then s else first_truthy rest
  | None :: rest => first_truthy rest
  end.

(** The request [_recognize_impl] sends. [wav_bytes] is what
    [_serialize_audio] returns for the buffer, [hint] the [language]
    argument ([None] for [NOT_GIVEN]). *)
Definition recognize_request (opts : DrascomSttOptions)
    (wav_bytes : list byte) (hint : option string) (conn_timeout : float)
    : Request :=
  let payload :=
    [("model", model opts); ("response_format", response_format opts)]%string
    ++ match language opts with
       | Some l =>
           if str_truthy l then [("language"%string, l)]
           else match hint with Some h => [("language"%string, h)] | None => [] end
       | None =>
           match hint with Some h => [("language"%string, h)] | None => [] end
       end in
  {| url := base_url opts +:+ SPEECH_STT_ENDPOINT;
     form := payload;
     file := ("input.wav"%string, wav_bytes, "audio/wav"%string);
     request_timeout := conn_timeout |}.

(** [try: body = response.json() except ValueError: body = response.text] *)
Definition response_body (response : Response) : json :=
  match json_body response with
  | Some decoded => decoded
  | None => JStr (text response)
  end.

(** [_recognize_impl]. [post] is the remote service; [audio_duration] is
    what [calculate_audio_duration] returns for the buffer. The result is
    the error raised or the event returned. *)
Definition _recognize_impl (opts : DrascomSttOptions)
    (post : Request -> HttpOutcome) (wav_bytes : list byte)
    (audio_duration : float) (hint : option string) (conn_timeout : float)
    : APIError + SpeechEvent :=
  match post (recognize_request opts wav_bytes hint conn_timeout) with
  | TimeoutException => inl APITimeoutError
  | RequestError => inl APIConnectionError
  | Responded response =>
      if negb (is_success response) then
        inl (APIStatusError
               ("stt request failed (" +:+ pretty (status_code response) +:+ ")")
               (status_code response)
               (headers response !! "x-request-id"%string)
               (text response))
      else
        let body := response_body response in
        let transcript := _extract_transcription body in
        let detected_language := _extract_language body in
        let language_code :=
          first_truthy [detected_language; language opts; hint] in
        let request_id :=
          default ""%string (headers response !! "x-request-id"%string) in
        if match transcript with Some t => str_truthy t | None => false end
        then
          inr {| se_type := FINAL_TRANSCRIPT;
                 se_request_id := request_id;
                 alternatives :=
                   [ {| sd_text := default ""%string transcript;
                        sd_language := language_code |} ];
                 recognition_usage := audio_duration |}
        else
          inr {| se_type := FINAL_TRANSCRIPT;
                 se_request_id := request_id;
                 alternatives := [];
                 recognition_usage := audio_duration |}
  end.

(** [_build_headers] *)
Definition _build_headers (api_key : option string) (accept : string)
    : gmap string string :=
  let headers : gmap string string := {[ "Accept"%string := accept ]} in
  match api_key with
  | Some key =>
      if str_truthy key
      then <[ "Authorization"%string := ("Bearer " +:+ key)%string ]> headers
      else headers
  | None => headers
  end.

(** [DrascomSTT]: the options, and the headers and timeout its HTTP
    client is created with. *)
Record DrascomSTT : Type := {
  _opts : DrascomSttOptions;
  _client_headers : gmap string string;
  _client_timeout : float
}.

(** [DrascomSTT.__init__] *)
Definition DrascomSTT_init (base model_name : string)
    (language_arg : option string) (format : string)
    (key : option string) (seconds : float) : DrascomSTT :=
  {| _opts :=
       {| base_url := rstrip_char "/" base;
          model := model_name;
          language := language_arg;
          response_format := format;
          api_key := key;
          timeout := seconds |};
     _client_headers := _build_headers key "application/json";
     _client_timeout := seconds |}.

(** ** The search as the specification words it *)

(** Every non-empty match of a body, in traversal order: a text as it
    stands; for a sequence, the matches of each element in turn; for a
    mapping, first the direct keys [text], [transcript], [transcription],
    [result], [output], then the elements of the list-valued keys
    [segments], [alternatives], [data], searched the same way. *)
Fixpoint matches_in_order (body : json) : list string :=
  match body with
  | JStr s => if str_truthy (strip s) then [strip s] else []
  | JList parts => flat_map matches_in_order parts
  | JDict entries =>
      flat_map
        (fun key =>
           match text_at entries key with Some t => [t] | None => [] end)
        text_keys
      ++
      flat_map
        (fun key =>
           with_entry key
             (fun value =>
                match value with
                | JList items => flat_map matches_in_order items
                | _ => []
                end)
             [] entries)
        list_keys
  | _ => []
  end.

(** ** Sample inputs *)

Definition segments_body : json :=
  JDict [("segments"%string, JList [JDict [("text"%string, JStr "hi")]])].

Definition sequence_body : json :=
  JList [JStr ""; JDict [("transcript"%string, JStr "ok")]].

Definition sample_opts : DrascomSttOptions :=
  {| base_url := "http://speech.local";
     model := "Systran/faster-whisper-medium";
     language := None;
     response_format := "json";
     api_key := None;
     timeout := 30%float |}.

(** A 200 response whose body is two spaces of plain text, not JSON. *)
Definition blank_response : Response :=
  {| status_code := 200;
     headers := {[ "x-request-id"%string := "r-1"%string ]};
     text := "  ";
     json_body := None |}.

End Stt.

(* ===================================================================== *)
(** * The synthesis adapter ([DrascomTTS]) *)
(* ===================================================================== *)

Module Tts.
Import Py.

Definition SPEECH_TTS_ENDPOINT : string := "/v1/audio/speech".

Record DrascomTtsOptions : Type := {
  base_url : string;
  model : string;
  voice : string;
  speed : float;
  response_format : string;
  api_key : option string;
  timeout : float
}.

(** [DrascomTTS]: the options it owns and the two audio constants handed
    to the base class. *)
Record DrascomTTS : Type := {
  _opts : DrascomTtsOptions;
  sample_rate : Z;
  num_channels : Z
}.

(** Truth value of an optional [str] argument. *)
Definition given (arg : option string) : bool :=
  match arg with
  | Some s => str_truthy s
  | None => false
  end.

(** [update_options]; an argument left out is [None]. *)
Definition update_options (self : DrascomTTS)
    (model_arg voice_arg : option string) (speed_arg : option float)
    (response_format_arg : option string) : DrascomTTS :=
  let opts := _opts self in
  let opts :=
    if given model_arg then
      {| base_url := base_url opts; model := default ""%string model_arg;
         voice := voice opts; speed := speed opts;
         response_format := response_format opts;
         api_key := api_key opts; timeout := timeout opts |}
    else opts in
  let opts :=
    if given voice_arg then
      {| base_url := base_url opts; model := model opts;
         voice := default ""%string voice_arg; speed := speed opts;
         response_format := response_format opts;
         api_key := api_key opts; timeout := timeout opts |}
    else opts in
  let opts :=
    match speed_arg with
    | Some s =>
        {| base_url := base_url opts; model := model opts;
           voice := voice opts; speed := s;
           response_format := response_format opts;
           api_key := api_key opts; timeout := timeout opts |}
    | None => opts
    end in
  let opts :=
    if given response_format_arg then
      {| base_url := base_url opts; model := model opts;
         voice := voice opts; speed := speed opts;
         response_format := default ""%string response_format_arg;
         api_key := api_key opts; timeout := timeout opts |}
    else opts in
  {| _opts := opts;
     sample_rate := sample_rate self;
     num_channels := num_channels self |}.

(** The JSON body of a synthesis request. *)
Record Payload : Type := {
  p_model : string;
  p_voice : string;
  p_input : string;
  p_response_format : string;
  p_speed : float
}.

Record Request : Type := {
  url : string;
  payload : Payload;
  request_timeout : float
}.

Record Response : Type := {
  status_code : Z;
  headers : gmap string string;
  text : string;
  content : list byte
}.

Inductive HttpOutcome : Type :=
| Responded (response : Response)
| TimeoutException
| RequestError.

Definition is_success (response : Response) : bool :=
  (200 <=? status_code response) && (status_code response <=? 299).

Inductive APIError : Type :=
| APIStatusError (message : string) (code : Z)
    (request_id : option string) (body : string)
| APITimeoutError
| APIConnectionError.

(** Calls made on the [output_emitter]. *)
Inductive EmitterCall : Type :=
| initialize (request_id : string) (sample_rate num_channels : Z)
    (mime_type : string)
| push (audio : list byte)
| flush.

(** The request [_run] builds from the adapter's current options. *)
Definition run_request (self : DrascomTTS) (input_text : string)
    (conn_timeout : float) : Request :=
  {| url := base_url (_opts self) +:+ SPEECH_TTS_ENDPOINT;
     payload :=
       {| p_model := model (_opts self);
          p_voice := voice (_opts self);
          p_input := input_text;
          p_response_format := response_format (_opts self);
          p_speed := speed (_opts self) |};
     request_timeout := conn_timeout |}.

(** [_DrascomTTSSynthesizedStream._run] for the stream [synthesize]
    returns: either the error raised or the calls made on the emitter. *)
Definition _run (self : DrascomTTS) (post : Request -> HttpOutcome)
    (input_text : string) (conn_timeout : float)
    : APIError + list EmitterCall :=
  match post (run_request self input_text conn_timeout) with
  | TimeoutException => inl APITimeoutError
  | RequestError => inl APIConnectionError
  | Responded response =>
      if negb (is_success response) then
        inl (APIStatusError
               ("tts request failed (" +:+ pretty (status_code response) +:+ ")")
               (status_code response)
               (headers response !! "x-request-id"%string)
               (text response))
      else
        let mime_type :=
          default "audio/mpeg"%string
            (headers response !! "content-type"%string) in
        let request_id :=
          default ""%string (headers response !! "x-request-id"%string) in
        inr [ initialize request_id (sample_rate self) (num_channels self)
                mime_type;
              push (content response);
              flush ]
  end.

(** [DrascomTTS.__init__]: the adapter, and the headers its HTTP client
    is created with. *)
Definition DrascomTTS_init (base model_name voice_name : string)
    (rate : float) (format : string) (key : option string)
    (seconds : float) : DrascomTTS * gmap string string :=
  ({| _opts :=
        {| base_url := rstrip_char "/" base;
           model := model_name;
           voice := voice_name;
           speed := rate;
           response_format := format;
           api_key := key;
           timeout := seconds |};
      sample_rate := 24000;
      num_channels := 1 |},
   Stt._build_headers key "audio/mpeg").

(** ** Sample inputs *)

Definition sample_tts : DrascomTTS :=
  {| _opts :=
       {| base_url := "http://speech.local";
          model := "speaches-ai/piper-en_GB-jenny_dioco-medium";
          voice := "jenny_dioco";
          speed := 1%float;
          response_format := "mp3";
          api_key := None;
          timeout := 30%float |};
     sample_rate := 24000;
     num_channels := 1 |}.

End Tts.

(* ===================================================================== *)
(** * The session registry ([SessionRegistry]) *)
(* ===================================================================== *)

Module Registry.

(** An opaque object reference ([Any]); [None] is Python's [None]. *)
Definition handle : Type := option N.

(** A [datetime], as a count of microseconds. *)
Definition datetime : Type := Z.

Record SessionInfo : Type := {
  room_name : string;
  user_identity : string;
  user_name : string;
  created_at : datetime;
  agent_session : handle;
  agent : handle;
  metadata : list (string * string)
}.

(** The instance attributes; [_room_lock] is [true] while the lock is
    held. The class attribute [_lock] is used by no method and is left
    out. *)
Record SessionRegistry : Type := {
  _sessions : gmap string SessionInfo;
  _room_lock : bool;
  _greeting_times : gmap string datetime
}.

(** The instance [__new__] creates. *)
Definition new_registry : SessionRegistry :=
  {| _sessions := ∅; _room_lock := false; _greeting_times := ∅ |}.

(** What a method does to the shared object, in order. *)
Inductive effect : Type :=
| Acquire
| Release
| WriteSessions (room : string)
| WriteGreetingTimes (user : string).

(** A method body: from the registry it finds to its result, the registry
    it leaves and the effects it had. [None]: the method waits on a lock
    that nothing releases. *)
Definition M (A : Type) : Type :=
  SessionRegistry -> option (A * SessionRegistry * list effect).

Definition ret {A : Type} (x : A) : M A := fun reg => Some (x, reg, []).

Definition bind {A B : Type} (m : M A) (k : A -> M B) : M B :=
  fun reg =>
    match m reg with
    | None => None
    | Some (x, reg1, e1) =>
        match k x reg1 with
        | None => None
        | Some (y, reg2, e2) => Some (y, reg2, e1 ++ e2)
        end
    end.

Notation "m >>= k" := (bind m k) (at level 50, left associativity).

Definition acquire : M unit :=
  fun reg =>
    if _room_lock reg then None
    else Some (tt,
               {| _sessions := _sessions reg; _room_lock := true;
                  _greeting_times := _greeting_times reg |},
               [Acquire]).

Definition release : M unit :=
  fun reg =>
    Some (tt,
          {| _sessions := _sessions reg; _room_lock := false;
             _greeting_times := _greeting_times reg |},
          [Release]).

(** [async with self._room_lock: body] *)
Definition with_room_lock {A : Type} (body : M A) : M A :=
  acquire >>= fun _ => body >>= fun x => release >>= fun _ => ret x.

(** [self._sessions[room] = session] *)
Definition set_session (room : string) (session : SessionInfo) : M unit :=
  fun reg =>
    Some (tt,
          {| _sessions := <[room := session]> (_sessions reg);
             _room_lock := _room_lock reg;
             _greeting_times := _greeting_times reg |},
          [WriteSessions room]).

(** [self._sessions.pop(room, None)] *)
Definition pop_session (room : string) : M (option SessionInfo) :=
  fun reg =>
    Some (_sessions reg !! room,
          {| _sessions := delete room (_sessions reg);
             _room_lock := _room_lock reg;
             _greeting_times := _greeting_times reg |},
          [WriteSessions room]).

(** [self._greeting_times[user] = stamp] *)
Definition set_greeting_time (user : string) (stamp : datetime) : M unit :=
  fun reg =>
    Some (tt,
          {| _sessions := _sessions reg;
             _room_lock := _room_lock reg;
             _greeting_times := <[user := stamp]> (_greeting_times reg) |},
          [WriteGreetingTimes user]).

(** [register]; [now] is the reading of [datetime.now()] that stamps the
    record, a missing [metadata] is [None]. *)
Definition register (room user_id name : string)
    (session_handle agent_handle : handle)
    (meta : option (list (string * string))) (now : datetime)
    : M SessionInfo :=
  with_room_lock
    (let session :=
       {| room_name := room;
          user_identity := user_id;
          user_name := name;
          created_at := now;
          agent_session := session_handle;
          agent := agent_handle;
          metadata :=
            match meta with
            | Some (entry :: rest) => entry :: rest
            | _ => []
            end |} in
     set_session room session >>= fun _ => ret session).

(** [unregister] *)
Definition unregister (room : string) : M (option SessionInfo) :=
  with_room_lock
    (pop_session room >>= fun session => ret session).

(** [get] *)
Definition get (self : SessionRegistry) (room : string)
    : option SessionInfo :=
  _sessions self !! room.

(** [list_sessions]; the order of the values is the map's, not the
    order of insertion. *)
Definition list_sessions (self : SessionRegistry) : list SessionInfo :=
  (map_to_list (_sessions self)).*2.

(** [active_count] *)
Definition active_count (self : SessionRegistry) : nat :=
  size (_sessions self).

(** [record_greeting]; [now] is the reading of [datetime.now()]. *)
Definition record_greeting (user : string) (now : datetime) : M unit :=
  set_greeting_time user now.

(** [should_greet]; [now] is the reading of [datetime.now()]. The
    elapsed [timedelta] is a count of microseconds and [total_seconds]
    divides it by [10**6]; the division and the comparison with the
    integer [min_seconds] are exact for magnitudes below 2^53. *)
Definition should_greet (self : SessionRegistry) (user : string)
    (min_seconds : Z) (now : datetime) : bool :=
  match _greeting_times self !! user with
  | None => true
  | Some last_greeted_at =>
      PrimFloat.leb (Py.Z_to_float min_seconds)
        (PrimFloat.div (Py.Z_to_float (now - last_greeted_at))
           (Py.Z_to_float 1000000))
  end.

(** ** Vocabulary for the statements *)

(** The calls a client makes on the session map. *)
Inductive op : Type :=
| Register (room user_id name : string) (session_handle agent_handle : handle)
    (meta : option (list (string * string))) (now : datetime)
| Unregister (room : string).

Definition run_op (o : op) (reg : SessionRegistry)
    : option (SessionRegistry * list effect) :=
  match o with
  | Register room user_id name sh ah meta now =>
      match register room user_id name sh ah meta now reg with
      | Some (_, reg', e) => Some (reg', e)
      | None => None
      end
  | Unregister room =>
      match unregister room reg with
      | Some (_, reg', e) => Some (reg', e)
      | None => None
      end
  end.

Fixpoint run_ops (ops : list op) (reg : SessionRegistry)
    : option SessionRegistry :=
  match ops with
  | [] => Some reg
  | o :: rest =>
      match run_op o reg with
      | Some (reg', _) => run_ops rest reg'
      | None => None
      end
  end.


(** Every write in the trace happens between an [Acquire] and the
    [Release] that follows it. *)
Fixpoint writes_locked (held : bool) (trace : list effect) : bool :=
  match trace with
  | [] => true
  | Acquire :: rest => writes_locked true rest
  | Release :: rest => writes_locked false rest
  | WriteSessions _ :: rest => held && writes_locked held rest
  | WriteGreetingTimes _ :: rest => held && writes_locked held rest
  end.

(** The effects of a method started on [reg] ([[]] if it never returns). *)
Definition effects_of {A : Type} (m : M A) (reg : SessionRegistry)
    : list effect :=
  match m reg with
  | Some (_, _, e) => e
  | None => []
  end.


(** ** Concurrent callers *)

(** A call of one of the three methods that write to the registry. *)
Inductive call : Type :=
| SessionCall (o : op)
| GreetingCall (user : string) (now : datetime).

(** What a call returns. *)
Inductive result : Type :=
| Registered (session : SessionInfo)
| Unregistered (session : option SessionInfo)
| Greeted.

(** How far the task running a call has got: before [async with] has the
    lock, with the lock and the body still to run, with the body run (and
    its result) and the lock still to release, and returned.  A coroutine
    can be suspended only where it awaits, which in [register] and
    [unregister] is on entering and leaving [async with]; the body between
    the two has no [await].  The event loop here may switch tasks between
    any two stages, and any task may take a free lock.  That is more than
    [asyncio] allows, whose lock is taken without suspension when free and
    handed to waiters in turn: every schedule of the interpreter is one of
    these. *)
Inductive stage : Type :=
| Entering
| Holding
| Leaving (r : result)
| Returned (r : result).

Record task : Type := {
  task_call : call;
  task_stage : stage
}.

(** The statements inside [async with self._room_lock] of [register] and
    of [unregister]. *)
Definition locked_body (o : op) : M result :=
  match o with
  | Register room user_id name session_handle agent_handle meta now =>
      let session :=
        {| room_name := room;
           user_identity := user_id;
           user_name := name;
           created_at := now;
           agent_session := session_handle;
           agent := agent_handle;
           metadata :=
             match meta with
             | Some (entry :: rest) => entry :: rest
             | _ => []
             end |} in
      set_session room session >>= fun _ => ret (Registered session)
  | Unregister room =>
      pop_session room >>= fun session => ret (Unregistered session)
  end.

(** One uninterrupted stretch of a task. A task that finds the lock held
    is not runnable ([None]), nor is one that has returned;
    [record_greeting], not being a coroutine, runs in one stretch. *)
Definition task_step (t : task) : M task :=
  match task_call t, task_stage t with
  | SessionCall o, Entering =>
      acquire >>= fun _ => ret {| task_call := task_call t; task_stage := Holding |}
  | SessionCall o, Holding =>
      locked_body o >>= fun r =>
      ret {| task_call := task_call t; task_stage := Leaving r |}
  | SessionCall o, Leaving r =>
      release >>= fun _ =>
      ret {| task_call := task_call t; task_stage := Returned r |}
  | GreetingCall user now, Entering =>
      record_greeting user now >>= fun _ =>
      ret {| task_call := task_call t; task_stage := Returned Greeted |}
  | _, _ => fun _ => None
  end.

(** One task per call, none started. *)
Definition spawn (calls : list call) : list task :=
  (fun c => {| task_call := c; task_stage := Entering |}) <$> calls.

(** The event loop gives task [i] its next stretch; the effects are
    recorded with the task that had them. *)
Definition turn (i : nat) (pool : list task) (reg : SessionRegistry)
    : option (list task * SessionRegistry * list (nat * effect)) :=
  match pool !! i with
  | None => None
  | Some t =>
      match task_step t reg with
      | None => None
      | Some (t', reg', e) => Some (<[i := t']> pool, reg', pair i <$> e)
      end
  end.

(** The event loop following a schedule: which task runs next, stretch
    by stretch. *)
Fixpoint run_schedule (schedule : list nat) (pool : list task)
    (reg : SessionRegistry)
    : option (list task * SessionRegistry * list (nat * effect)) :=
  match schedule with
  | [] => Some (pool, reg, [])
  | i :: rest =>
      match turn i pool reg with
      | None => None
      | Some (pool1, reg1, e1) =>
          match run_schedule rest pool1 reg1 with
          | None => None
          | Some (pool2, reg2, e2) => Some (pool2, reg2, e1 ++ e2)
          end
      end
  end.

(** A call made with nothing else running: the method itself. *)
Definition run_call (c : call) (reg : SessionRegistry)
    : option (result * SessionRegistry * list effect) :=
  match c with
  | SessionCall (Register room user_id name sh ah meta now) =>
      (register room user_id name sh ah meta now >>= fun session =>
       ret (Registered session)) reg
  | SessionCall (Unregister room) =>
      (unregister room >>= fun session => ret (Unregistered session)) reg
  | GreetingCall user now =>
      (record_greeting user now >>= fun _ => ret Greeted) reg
  end.

(** Calls made one after the other. *)
Fixpoint run_calls (calls : list call) (reg : SessionRegistry)
    : option SessionRegistry :=
  match calls with
  | [] => Some reg
  | c :: rest =>
      match run_call c reg with
      | Some (_, reg', _) => run_calls rest reg'
      | None => None
      end
  end.

(** The task is between taking the lock and releasing it. *)
Definition in_lock (t : task) : bool :=
  match task_stage t with
  | Holding | Leaving _ => true
  | _ => false
  end.

(** The task has not written yet. *)
Definition unwritten (t : task) : bool :=
  match task_stage t with
  | Entering | Holding => true
  | _ => false
  end.

Definition returned (t : task) : bool :=
  match task_stage t with
  | Returned _ => true
  | _ => false
  end.

(** The calls of the tasks that have not written yet. *)
Definition outstanding (pool : list task) : list call :=
  flat_map (fun t => if unwritten t then [task_call t] else []) pool.

Definition is_write (e : effect) : bool :=
  match e with
  | WriteSessions _ | WriteGreetingTimes _ => true
  | _ => false
  end.

(** The calls in the order in which their writes happened. *)
Definition committed (calls : list call) (trace : list (nat * effect))
    : list call :=
  flat_map
    (fun ie =>
       if is_write (snd ie)
       then match calls !! fst ie with Some c => [c] | None => [] end
       else [])
    trace.

(** The discipline of the lock, read off a trace: it is taken only when
    free, released only by the task that took it, and the session map is
    written only by the task that holds it. [owner] is the holder at the
    start of the trace. *)
Fixpoint lock_protocol (owner : option nat) (trace : list (nat * effect))
    : bool :=
  match trace with
  | [] => true
  | (i, Acquire) :: rest =>
      match owner with
      | None => lock_protocol (Some i) rest
      | Some _ => false
      end
  | (i, Release) :: rest =>
      match owner with
      | Some j => (i =? j)%nat && lock_protocol None rest
      | None => false
      end
  | (i, WriteSessions _) :: rest =>
      match owner with
      | Some j => (i =? j)%nat && lock_protocol owner rest
      | None => false
      end
  | (i, WriteGreetingTimes _) :: rest => lock_protocol owner rest
  end.

(** [owner] holds the lock of [reg]: the tasks in the locked region are
    the owner alone, they run [register] or [unregister], and the lock is
    held exactly when there is an owner. *)
Definition owned (owner : option nat) (pool : list task)
    (reg : SessionRegistry) : Prop :=
  (forall i t, pool !! i = Some t ->
     (in_lock t = true <-> owner = Some i)) /\
  (forall i t, pool !! i = Some t -> in_lock t = true ->
     exists o, task_call t = SessionCall o) /\
  match owner with
  | Some j => _room_lock reg = true /\ is_Some (pool !! j)
  | None => _room_lock reg = false
  end.

(** The registry with its lock set free. *)
Definition unlocked (reg : SessionRegistry) : SessionRegistry :=
  {| _sessions := _sessions reg; _room_lock := false;
     _greeting_times := _greeting_times reg |}.

(** The four stretches a task can run, as [turn] runs them (see
    [turn_stretch]). *)
Inductive stretch (i : nat) (pool : list task) (reg : SessionRegistry)
    : list task -> SessionRegistry -> list (nat * effect) -> Prop :=
| stretch_acquire o :
    pool !! i = Some {| task_call := SessionCall o; task_stage := Entering |} ->
    _room_lock reg = false ->
    stretch i pool reg
      (<[i := {| task_call := SessionCall o; task_stage := Holding |}]> pool)
      {| _sessions := _sessions reg; _room_lock := true;
         _greeting_times := _greeting_times reg |}
      [(i, Acquire)]
| stretch_body o r reg' room :
    pool !! i = Some {| task_call := SessionCall o; task_stage := Holding |} ->
    locked_body o reg = Some (r, reg', [WriteSessions room]) ->
    stretch i pool reg
      (<[i := {| task_call := SessionCall o; task_stage := Leaving r |}]> pool)
      reg' [(i, WriteSessions room)]
| stretch_release o r :
    pool !! i = Some {| task_call := SessionCall o; task_stage := Leaving r |} ->
    stretch i pool reg
      (<[i := {| task_call := SessionCall o; task_stage := Returned r |}]> pool)
      (unlocked reg) [(i, Release)]
| stretch_greeting user now :
    pool !! i = Some {| task_call := GreetingCall user now;
                        task_stage := Entering |} ->
    stretch i pool reg
      (<[i := {| task_call := GreetingCall user now;
                 task_stage := Returned Greeted |}]> pool)
      {| _sessions := _sessions reg; _room_lock := _room_lock reg;
         _greeting_times := <[user := now]> (_greeting_times reg) |}
      [(i, WriteGreetingTimes user)].

(** The stretches of a call that nothing interrupts. *)
Definition alone (c : call) : list nat :=
  match c with
  | SessionCall _ => [0; 0; 0]%nat
  | GreetingCall _ _ => [0%nat]
  end.

(** Room [A] is registered and unregistered while a greeting is
    recorded. *)
Definition sample_calls : list call :=
  [ SessionCall (Register "A" "u1" "Ann" None None None 0);
    GreetingCall "u1" 5;
    SessionCall (Unregister "A") ].

Definition sample_session : SessionInfo :=
  {| room_name := "A"; user_identity := "u1"; user_name := "Ann";
     created_at := 0; agent_session := None; agent := None;
     metadata := [] |}.

End Registry.

(* ===================================================================== *)
(** * The language bookkeeping of the assistant ([agent.Assistant]) *)
(* ===================================================================== *)

Module Agent.
Import Py.

(** The two language attributes of an [Assistant]. *)
Record Assistant : Type := {
  _last_language : option string;
  _active_language : option string
}.

(** [_normalize_language] *)
Definition _normalize_language (language : string) : string :=
  replace_char "_" "-" (lower (strip language)).

(** [_is_turkish] *)
Definition _is_turkish (language : option string) : bool :=
  match language with
  | None => false
  | Some l =>
      if negb (str_truthy l) then false
      else
        let l := _normalize_language l in
        String.eqb l "tr" || String.eqb l "tr-tr" || String.eqb l "turkish"
  end.

(** [_coerce_language] *)
Definition _coerce_language (language : option string) : option string :=
  match language with
  | None => None
  | Some l =>
      if negb (str_truthy l) then None
      else
        let normalized := _normalize_language l in
        if _is_turkish (Some normalized) then Some "tr"%string
        else if String.eqb normalized "en" || String.eqb normalized "en-us"
                || String.eqb normalized "en-gb"
                || String.eqb normalized "english"
             then Some "en"%string
             else Some "en"%string
  end.

(** [set_detected_language] *)
Definition set_detected_language (self : Assistant)
    (language : option string) : Assistant :=
  match _coerce_language language with
  | None => self
  | Some coerced =>
      if negb (str_truthy coerced) then self
      else {| _last_language := Some coerced;
              _active_language := _active_language self |}
  end.

(** [_language_instructions] *)
Definition _language_instructions (language : option string) : string :=
  if _is_turkish language then "Respond in Turkish." else "Respond in English.".

End Agent.

(* ===================================================================== *)
(** * Properties of the voice-activity detector *)
(* ===================================================================== *)

Section VadFacts.
Import Py Vad.

(** ** Nothing in a frame makes the detector raise *)

Lemma cast_h_even (n : nat) :
  forall raw : list byte, length raw = (2 * n)%nat ->
  exists view, cast_h raw = Some view /\ length view = n.
Proof.
  induction n as [|n IH]; intros raw Hlen.
  - destruct raw; [|discriminate]. exists []. split; reflexivity.
  - destruct raw as [|lo [|hi rest]]; simpl in Hlen; try lia.
    destruct (IH rest) as (view & Hview & Hn); [lia|].
    exists (int16_le lo hi :: view). simpl. rewrite Hview.
    split; [reflexivity | simpl; congruence].
Qed.

Lemma max_of_cons (x : Z) (xs : list Z) :
  exists m, max_of (x :: xs) = Some m.
Proof. eexists. reflexivity. Qed.

Lemma frame_amplitude_total (frame : AudioFrame) :
  exists a, _frame_amplitude frame = Some a.
Proof.
  unfold _frame_amplitude.
  destruct (_ || _)%bool; [eauto|].
  set (raw := if negb _ then _ else _).
  assert (Heven : exists n, length raw = (2 * n)%nat).
  { subst raw. destruct (Z.eqb_spec (Z.of_nat (length (data frame)) mod 2) 0)
      as [E|E]; simpl.
    - exists (Z.to_nat (Z.of_nat (length (data frame)) / 2)).
      apply Z.mod_divide in E; [|lia]. destruct E as [q Hq].
      rewrite Hq, Z.div_mul by lia. lia.
    - exists (Z.to_nat (Z.of_nat (length (data frame)) / 2)).
      rewrite length_firstn.
      pose proof (Z.div_mod (Z.of_nat (length (data frame))) 2 ltac:(lia)).
      pose proof (Z.mod_pos_bound (Z.of_nat (length (data frame))) 2 ltac:(lia)).
      lia. }
  destruct Heven as [n Hn].
  destruct (cast_h_even n raw Hn) as (view & -> & _).
  destruct view; [eauto|]. apply max_of_cons.
Qed.

Lemma frame_duration_total (frame : AudioFrame) :
  exists d, frame_duration frame = Some d.
Proof.
  unfold frame_duration, truediv.
  destruct (float_truthy _); [eauto|].
  destruct (sample_rate frame =? 0); simpl; eauto.
Qed.

Lemma frame_amplitude_of (frame : AudioFrame) :
  _frame_amplitude frame = Some (amplitude_of frame).
Proof.
  unfold amplitude_of.
  destruct (frame_amplitude_total frame) as [a ->]. reflexivity.
Qed.

Lemma frame_duration_of (frame : AudioFrame) :
  frame_duration frame = Some (duration_of frame).
Proof.
  unfold duration_of.
  destruct (frame_duration_total frame) as [d ->]. reflexivity.
Qed.

Lemma process_frame_eq now self frame :
  _process_frame now self frame =
  Some (conclude now frame
          (classify now self frame (amplitude_of frame) (duration_of frame))).
Proof.
  unfold _process_frame.
  rewrite frame_amplitude_of, frame_duration_of. reflexivity.
Qed.

Lemma main_loop_total (input : list (float * chunk)) :
  forall self, exists self', main_loop self input = Some self'.
Proof.
  induction input as [|[now c] rest IH]; intros self; simpl; [eauto|].
  destruct c; simpl; [rewrite process_frame_eq|]; apply IH.
Qed.

Lemma main_loop_app (l1 l2 : list (float * chunk)) :
  forall self self1,
  main_loop self l1 = Some self1 ->
  main_loop self (l1 ++ l2) = main_loop self1 l2.
Proof.
  induction l1 as [|[now c] rest IH]; intros self self1 H; simpl in *.
  - congruence.
  - destruct (handle_chunk now self c); [eauto | discriminate].
Qed.

(** ** One frame, case by case *)

Lemma process_voiced_speaking now self frame :
  voiced self frame -> _speech_started self = true ->
  _process_frame now self frame =
  Some (advance_samples (samples_per_channel frame)
          (append_speech frame (duration_of frame)
             (set_silence_accumulated 0%float self))).
Proof.
  unfold voiced. intros Hv Hs. apply Z.leb_le in Hv.
  rewrite process_frame_eq. unfold conclude, classify.
  rewrite Hv. simpl. rewrite Hs. reflexivity.
Qed.

Lemma process_voiced_candidate now self frame :
  voiced self frame -> _speech_started self = false ->
  PrimFloat.leb (_min_speech_duration self)
    (PrimFloat.add (_pending_duration self) (duration_of frame)) = false ->
  _process_frame now self frame =
  Some (advance_samples (samples_per_channel frame)
          (append_pending frame (duration_of frame)
             (set_silence_accumulated 0%float self))).
Proof.
  unfold voiced. intros Hv Hs Hd. apply Z.leb_le in Hv.
  rewrite process_frame_eq. unfold conclude, classify.
  rewrite Hv. simpl. rewrite Hs, Hd. reflexivity.
Qed.

Lemma process_voiced_start now self frame :
  voiced self frame -> _speech_started self = false ->
  PrimFloat.leb (_min_speech_duration self)
    (PrimFloat.add (_pending_duration self) (duration_of frame)) = true ->
  _process_frame now self frame =
  Some (advance_samples (samples_per_channel frame)
          (_start_speech now
             (append_pending frame (duration_of frame)
                (set_silence_accumulated 0%float self)))).
Proof.
  unfold voiced. intros Hv Hs Hd. apply Z.leb_le in Hv.
  rewrite process_frame_eq. unfold conclude, classify.
  rewrite Hv. simpl. rewrite Hs, Hd. reflexivity.
Qed.

Lemma process_silent_speaking now self frame :
  silent self frame -> _speech_started self = true ->
  _process_frame now self frame =
  Some (let self' :=
          advance_samples (samples_per_channel frame)
            (set_silence_accumulated
               (PrimFloat.add (_silence_accumulated self) (duration_of frame))
               self) in
        if PrimFloat.leb (_silence_timeout self)
             (PrimFloat.add (_silence_accumulated self) (duration_of frame))
        then _emit_end now self' else self').
Proof.
  unfold silent. intros Hv Hs. apply Z.leb_gt in Hv.
  rewrite process_frame_eq. unfold conclude, classify.
  rewrite Hv, Hs. reflexivity.
Qed.

Lemma process_silent_not_speaking now self frame :
  silent self frame -> _speech_started self = false ->
  _process_frame now self frame =
  Some (advance_samples (samples_per_channel frame) self).
Proof.
  unfold silent. intros Hv Hs. apply Z.leb_gt in Hv.
  rewrite process_frame_eq. unfold conclude, classify.
  rewrite Hv, Hs. reflexivity.
Qed.

Lemma voiced_or_silent self frame : voiced self frame \/ silent self frame.
Proof. unfold voiced, silent. lia. Qed.

(** ** What a run leaves untouched, and what it counts *)

Ltac vad_cases :=
  unfold conclude, classify, _emit_end, _start_speech, append_speech,
    append_pending, set_silence_accumulated, advance_samples;
  repeat (simpl;
          match goal with
          | |- context [if ?b then _ else _] => destruct b eqn:?
          end);
  simpl.

Lemma handle_chunk_total now self c :
  exists self', handle_chunk now self c = Some self'.
Proof. destruct c; simpl; [rewrite process_frame_eq|]; eauto. Qed.

Lemma handle_chunk_config now self c self' :
  handle_chunk now self c = Some self' ->
  _threshold self' = _threshold self /\
  _min_speech_duration self' = _min_speech_duration self /\
  _silence_timeout self' = _silence_timeout self.
Proof.
  destruct c; simpl; [rewrite process_frame_eq|];
    intros [= <-]; vad_cases; auto.
Qed.

Lemma main_loop_config (input : list (float * chunk)) :
  forall self self', main_loop self input = Some self' ->
  _threshold self' = _threshold self /\
  _min_speech_duration self' = _min_speech_duration self /\
  _silence_timeout self' = _silence_timeout self.
Proof.
  induction input as [|[now c] rest IH]; intros self self' H; simpl in H.
  - injection H as <-. auto.
  - destruct (handle_chunk now self c) as [self1|] eqn:E; [|discriminate].
    apply handle_chunk_config in E as (E1 & E2 & E3).
    apply IH in H as (H1 & H2 & H3). repeat split; congruence.
Qed.

Lemma handle_chunk_samples now self c self' :
  handle_chunk now self c = Some self' ->
  _samples_index self' = _samples_index self + chunk_samples c.
Proof.
  destruct c; simpl; [rewrite process_frame_eq|];
    intros [= <-]; vad_cases; lia.
Qed.

Lemma main_loop_samples (input : list (float * chunk)) :
  forall self self', main_loop self input = Some self' ->
  _samples_index self' = _samples_index self + total_samples input.
Proof.
  induction input as [|[now c] rest IH]; intros self self' H; simpl in H.
  - injection H as <-. simpl. lia.
  - destruct (handle_chunk now self c) as [self1|] eqn:E; [|discriminate].
    apply handle_chunk_samples in E. apply IH in H. simpl. lia.
Qed.

Lemma add_durations_snoc start fs f :
  add_durations start (fs ++ [f]) =
  PrimFloat.add (add_durations start fs) (duration_of f).
Proof. unfold add_durations. rewrite fold_left_app. reflexivity. Qed.

Lemma add_durations_cons start fs f :
  add_durations start (f :: fs) =
  add_durations (PrimFloat.add start (duration_of f)) fs.
Proof. reflexivity. Qed.

(** ** The bookkeeping invariant of a stream *)

Lemma consistent_stream vad : consistent (stream vad).
Proof.
  unfold consistent, stream; simpl.
  repeat split; try constructor; discriminate.
Qed.

Lemma consistent_emit_end now self :
  consistent self -> consistent (_emit_end now self).
Proof.
  intros H. unfold _emit_end. destruct (_speech_started self); simpl; [|exact H].
  unfold consistent; simpl. repeat split; try constructor; discriminate.
Qed.

Lemma consistent_step now self c self' :
  consistent self -> handle_chunk now self c = Some self' -> consistent self'.
Proof.
  intros Hc H. destruct c as [frame|]; simpl in H.
  - destruct (voiced_or_silent self frame) as [Hv|Hv];
      destruct (_speech_started self) eqn:Hs.
    + rewrite (process_voiced_speaking _ _ _ Hv Hs) in H. injection H as <-.
      destruct Hc as (H1 & H2 & H3 & H4 & H5).
      unfold consistent; simpl. repeat split; auto.
      * unfold sum_durations. rewrite add_durations_snoc. fold (sum_durations (_speech_frames self)). congruence.
      * apply Forall_app; split; [exact H3 | constructor; [exact Hv|constructor]].
    + destruct (PrimFloat.leb (_min_speech_duration self)
                  (PrimFloat.add (_pending_duration self) (duration_of frame)))
        eqn:Hd.
      * rewrite (process_voiced_start _ _ _ Hv Hs Hd) in H. injection H as <-.
        destruct Hc as (H1 & H2 & H3 & H4 & H5).
        unfold consistent; simpl. repeat split; auto.
        -- unfold sum_durations. rewrite add_durations_snoc.
           fold (sum_durations (_pending_frames self)). congruence.
        -- apply Forall_app; split; [exact H4 | constructor; [exact Hv|constructor]].
        -- intros _. eexists _, _. split; [reflexivity|]. simpl. auto.
      * rewrite (process_voiced_candidate _ _ _ Hv Hs Hd) in H. injection H as <-.
        destruct Hc as (H1 & H2 & H3 & H4 & H5).
        unfold consistent; simpl. repeat split; auto.
        -- unfold sum_durations. rewrite add_durations_snoc.
           fold (sum_durations (_pending_frames self)). congruence.
        -- apply Forall_app; split; [exact H4 | constructor; [exact Hv|constructor]].
        -- congruence.
    + rewrite (process_silent_speaking _ _ _ Hv Hs) in H. injection H as <-.
      cbv zeta.
      assert (Hc' : consistent
                (advance_samples (samples_per_channel frame)
                   (set_silence_accumulated
                      (PrimFloat.add (_silence_accumulated self)
                         (duration_of frame)) self))) by exact Hc.
      destruct (PrimFloat.leb _ _); [apply consistent_emit_end|]; exact Hc'.
    + rewrite (process_silent_not_speaking _ _ _ Hv Hs) in H. injection H as <-.
      exact Hc.
  - injection H as <-. destruct (_speech_started self); [|exact Hc].
    apply consistent_emit_end, Hc.
Qed.

Lemma consistent_run (input : list (float * chunk)) :
  forall self self', consistent self ->
  main_loop self input = Some self' -> consistent self'.
Proof.
  induction input as [|[now c] rest IH]; intros self self' Hc H; simpl in H.
  - congruence.
  - destruct (handle_chunk now self c) as [self1|] eqn:E; [|discriminate].
    eauto using consistent_step.
Qed.

(** ** Runs of like frames *)

Lemma candidates_accumulate (fs : list (float * AudioFrame)) :
  forall self, _speech_started self = false ->
  Forall (fun tf => voiced self (snd tf)) fs ->
  (forall j, (j < length fs)%nat ->
     PrimFloat.leb (_min_speech_duration self)
       (add_durations (_pending_duration self) (take (S j) (map snd fs)))
     = false) ->
  exists self', main_loop self (as_input fs) = Some self' /\
    _speech_started self' = false /\
    _pending_frames self' = _pending_frames self ++ map snd fs /\
    _pending_duration self' =
      add_durations (_pending_duration self) (map snd fs) /\
    _event_ch self' = _event_ch self.
Proof.
  induction fs as [|[t f] rest IH]; intros self Hs Hv Hd.
  - exists self. simpl. rewrite app_nil_r. auto.
  - inversion Hv as [|? ? Hf Hrest]; subst. simpl in Hf.
    assert (H0 := Hd 0%nat ltac:(simpl; lia)). simpl in H0.
    simpl. rewrite (process_voiced_candidate _ _ _ Hf Hs H0).
    destruct (IH (advance_samples (samples_per_channel f)
                    (append_pending f (duration_of f)
                       (set_silence_accumulated 0%float self))))
      as (self' & Hrun & H1 & H2 & H3 & H4).
    + exact Hs.
    + exact Hrest.
    + intros j Hj. apply (Hd (S j)). simpl. lia.
    + exists self'. rewrite Hrun. simpl in *.
      rewrite H2, H3, H4, <- app_assoc. auto.
Qed.

Lemma speaking_voiced (fs : list (float * AudioFrame)) :
  forall self, _speech_started self = true ->
  Forall (fun tf => voiced self (snd tf)) fs ->
  exists self', main_loop self (as_input fs) = Some self' /\
    _speech_started self' = true /\
    _speech_frames self' = _speech_frames self ++ map snd fs /\
    _event_ch self' = _event_ch self.
Proof.
  induction fs as [|[t f] rest IH]; intros self Hs Hv.
  - exists self. simpl. rewrite app_nil_r. auto.
  - inversion Hv as [|? ? Hf Hrest]; subst. simpl in Hf.
    simpl. rewrite (process_voiced_speaking _ _ _ Hf Hs).
    destruct (IH (advance_samples (samples_per_channel f)
                    (append_speech f (duration_of f)
                       (set_silence_accumulated 0%float self))))
      as (self' & Hrun & H1 & H2 & H3); [exact Hs | exact Hrest |].
    exists self'. rewrite Hrun. simpl in *.
    rewrite H2, H3, <- app_assoc. auto.
Qed.

Lemma speaking_silent (fs : list (float * AudioFrame)) :
  forall self, _speech_started self = true ->
  Forall (fun tf => silent self (snd tf)) fs ->
  (forall j, (j < length fs)%nat ->
     PrimFloat.leb (_silence_timeout self)
       (add_durations (_silence_accumulated self) (take (S j) (map snd fs)))
     = false) ->
  exists self', main_loop self (as_input fs) = Some self' /\
    _speech_started self' = true /\
    _speech_frames self' = _speech_frames self /\
    _speech_duration self' = _speech_duration self /\
    _speech_start_index self' = _speech_start_index self /\
    _silence_accumulated self' =
      add_durations (_silence_accumulated self) (map snd fs) /\
    _event_ch self' = _event_ch self.
Proof.
  induction fs as [|[t f] rest IH]; intros self Hs Hv Hd.
  - exists self. simpl. auto 10.
  - inversion Hv as [|? ? Hf Hrest]; subst. simpl in Hf.
    assert (H0 := Hd 0%nat ltac:(simpl; lia)). simpl in H0.
    simpl. rewrite (process_silent_speaking _ _ _ Hf Hs). cbv zeta.
    rewrite H0.
    destruct (IH (advance_samples (samples_per_channel f)
                    (set_silence_accumulated
                       (PrimFloat.add (_silence_accumulated self)
                          (duration_of f)) self)))
      as (self' & Hrun & H1 & H2 & H3 & H4 & H5 & H6).
    + exact Hs.
    + exact Hrest.
    + intros j Hj. apply (Hd (S j)). simpl. lia.
    + exists self'. rewrite Hrun. simpl in *. auto 10.
Qed.

Lemma take_past_index {A : Type} (l : list A) (k n : nat) (x : A) :
  l !! k = Some x -> (k < n)%nat ->
  take n l = take k l ++ x :: take (n - S k) (drop (S k) l).
Proof.
  intros Hk Hn.
  rewrite <- (take_drop_middle l k x Hk) at 1.
  assert (Hlen : length (take k l) = k).
  { rewrite length_take. apply lookup_lt_Some in Hk. lia. }
  rewrite take_app_ge by lia. rewrite Hlen.
  replace (n - k)%nat with (S (n - S k)) by lia. reflexivity.
Qed.

(** C2: a run of voiced frames fed to a fresh stream, whose accumulated
    duration first reaches [min_speech_duration] at frame [k], sends
    exactly one event: nothing has been sent while fewer than [k+1] frames
    are processed, and from frame [k] on the channel holds the single
    Start-of-Speech stamped while frame [k] was handled, carrying frames
    [0..k]. *)
Theorem start_of_speech_once
    (vad : SimpleEnergyVAD) (fs : list (float * AudioFrame))
    (k : nat) (tk : float) (fk : AudioFrame) :
  Forall (fun tf => voiced (stream vad) (snd tf)) fs ->
  fs !! k = Some (tk, fk) ->
  (forall j, (j < k)%nat ->
     PrimFloat.leb (vad_min_speech_duration vad)
       (sum_durations (take (S j) (map snd fs))) = false) ->
  PrimFloat.leb (vad_min_speech_duration vad)
    (sum_durations (take (S k) (map snd fs))) = true ->
  forall n, exists self,
    main_loop (stream vad) (as_input (take n fs)) = Some self /\
    _event_ch self =
      if decide (n <= k)%nat then []
      else [ {| type := START_OF_SPEECH;
                samples_index := total_samples (as_input (take k fs));
                timestamp := tk;
                speech_duration := 0%float;
                silence_duration := 0%float;
                frames := take (S k) (map snd fs) |} ].
Proof.
  intros Hv Hk Hbelow Hreach n.
  assert (Hpre : forall m, (m <= k)%nat ->
            exists self, main_loop (stream vad) (as_input (take m fs)) = Some self /\
              _speech_started self = false /\
              _pending_frames self = map snd (take m fs) /\
              _pending_duration self = sum_durations (map snd (take m fs)) /\
              _event_ch self = []).
  { intros m Hm.
    destruct (candidates_accumulate (take m fs) (stream vad)) as
      (self & Hrun & H1 & H2 & H3 & H4).
    - reflexivity.
    - apply Forall_take, Hv.
    - intros j Hj. rewrite length_take in Hj.
      rewrite firstn_map, take_take.
      replace (S j `min` m)%nat with (S j) by lia.
      rewrite <- firstn_map. apply (Hbelow j). lia.
    - exists self. simpl in *. auto. }
  destruct (decide (n <= k)%nat) as [Hn|Hn].
  - destruct (Hpre n Hn) as (self & Hrun & _ & _ & _ & Hev). eauto.
  - destruct (Hpre k (Nat.le_refl k)) as (s1 & Hrun1 & Hs1 & Hp1 & Hd1 & He1).
    rewrite (take_past_index fs k n (tk, fk) Hk) by lia.
    unfold as_input. rewrite map_app. fold (as_input (take k fs)).
    rewrite (main_loop_app _ _ _ _ Hrun1). simpl.
    destruct (main_loop_config _ _ _ Hrun1) as (Ht & Hm & _).
    assert (Hsplit : take (S k) (map snd fs) = map snd (take k fs) ++ [fk]).
    { rewrite <- firstn_map. apply take_S_r.
      change (map snd fs) with (snd <$> fs).
      rewrite list_lookup_fmap, Hk. reflexivity. }
    assert (Hfk : voiced s1 fk).
    { unfold voiced. rewrite Ht.
      apply (Forall_lookup_1 _ _ _ _ Hv Hk). }
    assert (Hstart : PrimFloat.leb (_min_speech_duration s1)
              (PrimFloat.add (_pending_duration s1) (duration_of fk)) = true).
    { rewrite Hm, Hd1. simpl. unfold sum_durations in *.
      rewrite <- add_durations_snoc, <- Hsplit. exact Hreach. }
    rewrite (process_voiced_start _ _ _ Hfk Hs1 Hstart).
    set (s2 := advance_samples _ _).
    destruct (speaking_voiced (take (n - S k) (drop (S k) fs)) s2)
      as (s3 & Hrun3 & _ & _ & He3).
    + reflexivity.
    + apply Forall_take, Forall_drop.
      eapply Forall_impl; [exact Hv|]. intros tf Htf.
      unfold voiced in *. simpl. rewrite Ht. exact Htf.
    + exists s3. split; [exact Hrun3|].
      rewrite He3. subst s2. simpl. rewrite He1, Hp1, Hsplit. simpl.
      rewrite (main_loop_samples _ _ _ Hrun1). reflexivity.
Qed.

Lemma voiced_clears_silence now self frame self' :
  voiced self frame -> _process_frame now self frame = Some self' ->
  _silence_accumulated self' = 0%float.
Proof.
  intros Hv H. destruct (_speech_started self) eqn:Hs.
  - rewrite (process_voiced_speaking _ _ _ Hv Hs) in H.
    injection H as <-. reflexivity.
  - destruct (PrimFloat.leb (_min_speech_duration self)
                (PrimFloat.add (_pending_duration self) (duration_of frame)))
      eqn:Hd.
    + rewrite (process_voiced_start _ _ _ Hv Hs Hd) in H.
      injection H as <-. reflexivity.
    + rewrite (process_voiced_candidate _ _ _ Hv Hs Hd) in H.
      injection H as <-. reflexivity.
Qed.

(** ** The buffers hold the voiced frames received *)

Lemma idle_consistent self : idle self -> consistent self /\ exclusive self.
Proof.
  intros (Hs & Hsf & Hpf & Hsd & Hpd & _). unfold consistent, exclusive.
  rewrite Hs, Hsf, Hpf, Hsd, Hpd.
  repeat split; try constructor; discriminate.
Qed.

Lemma voiced_frames_app thr l1 l2 :
  voiced_frames thr (l1 ++ l2) = voiced_frames thr l1 ++ voiced_frames thr l2.
Proof. unfold voiced_frames. apply flat_map_app. Qed.

Lemma voiced_frames_one_voiced self now frame :
  voiced self frame ->
  voiced_frames (_threshold self) [(now, Frame frame)] = [frame].
Proof.
  unfold voiced, voiced_frames. intros H. apply Z.leb_le in H. simpl.
  rewrite H. reflexivity.
Qed.

Lemma voiced_frames_one_silent self now frame :
  silent self frame ->
  voiced_frames (_threshold self) [(now, Frame frame)] = [].
Proof.
  unfold silent, voiced_frames. intros H. apply Z.leb_gt in H. simpl.
  rewrite H. reflexivity.
Qed.

(** One chunk: the events it adds, and, unless it closes a segment, the
    frame it adds to the buffers. *)
Lemma handle_chunk_buffers now self c self' :
  exclusive self ->
  handle_chunk now self c = Some self' ->
  exclusive self' /\
  exists news,
    _event_ch self' = _event_ch self ++ news /\
    (Forall (fun e => type e = START_OF_SPEECH) news ->
     buffered self' =
     buffered self ++ voiced_frames (_threshold self) [(now, c)]).
Proof.
  unfold exclusive, buffered. intros Hx H. destruct c as [frame|]; simpl in H.
  - destruct (voiced_or_silent self frame) as [Hv|Hv];
      destruct (_speech_started self) eqn:Hs.
    + rewrite (process_voiced_speaking _ _ _ Hv Hs) in H. injection H as <-.
      rewrite (voiced_frames_one_voiced _ now _ Hv).
      simpl. rewrite Hs. split; [exact Hx|].
      exists []. rewrite app_nil_r. split; [reflexivity|]. intros _.
      rewrite Hx, !app_nil_r. reflexivity.
    + destruct (PrimFloat.leb (_min_speech_duration self)
                  (PrimFloat.add (_pending_duration self) (duration_of frame)))
        eqn:Hd.
      * rewrite (process_voiced_start _ _ _ Hv Hs Hd) in H. injection H as <-.
        rewrite (voiced_frames_one_voiced _ now _ Hv).
        simpl. split; [reflexivity|].
        eexists. split; [reflexivity|]. intros _.
        rewrite Hx, app_nil_r. reflexivity.
      * rewrite (process_voiced_candidate _ _ _ Hv Hs Hd) in H.
        injection H as <-.
        rewrite (voiced_frames_one_voiced _ now _ Hv).
        simpl. rewrite Hs. split; [exact Hx|].
        exists []. rewrite app_nil_r. split; [reflexivity|]. intros _.
        rewrite Hx. reflexivity.
    + rewrite (process_silent_speaking _ _ _ Hv Hs) in H. injection H as <-.
      cbv zeta. rewrite (voiced_frames_one_silent _ now _ Hv), app_nil_r.
      destruct (PrimFloat.leb _ _).
      * unfold _emit_end. simpl. rewrite Hs. simpl. split; [reflexivity|].
        eexists. split; [reflexivity|]. intros Hall.
        inversion Hall as [|? ? Habs _]. discriminate.
      * simpl. rewrite Hs. split; [exact Hx|].
        exists []. rewrite app_nil_r. auto.
    + rewrite (process_silent_not_speaking _ _ _ Hv Hs) in H.
      injection H as <-.
      rewrite (voiced_frames_one_silent _ now _ Hv), !app_nil_r.
      simpl. rewrite Hs. split; [exact Hx|].
      exists []. rewrite !app_nil_r. auto.
  - injection H as <-. destruct (_speech_started self) eqn:Hs.
    + unfold _emit_end. rewrite Hs. simpl. split; [reflexivity|].
      eexists. split; [reflexivity|]. intros Hall.
      inversion Hall as [|? ? Habs _]. discriminate.
    + rewrite Hs. split; [exact Hx|]. exists [].
      unfold voiced_frames. simpl. rewrite !app_nil_r. auto.
Qed.

(** A run that sends no End-of-Speech adds to the buffers exactly the
    voiced frames of its input. *)
Lemma main_loop_buffers (input : list (float * chunk)) :
  forall self self', exclusive self ->
  main_loop self input = Some self' ->
  exclusive self' /\
  exists news,
    _event_ch self' = _event_ch self ++ news /\
    (Forall (fun e => type e = START_OF_SPEECH) news ->
     buffered self' = buffered self ++ voiced_frames (_threshold self) input).
Proof.
  induction input as [|[now c] rest IH]; intros self self' Hx H; simpl in H.
  - injection H as <-. split; [exact Hx|]. exists [].
    unfold voiced_frames. simpl. rewrite !app_nil_r. auto.
  - destruct (handle_chunk now self c) as [s1|] eqn:Hstep; [|discriminate].
    destruct (handle_chunk_config _ _ _ _ Hstep) as (Ht & _).
    destruct (handle_chunk_buffers _ _ _ _ Hx Hstep) as (Hx1 & n1 & He1 & Hb1).
    destruct (IH s1 self' Hx1 H) as (Hx' & n2 & He2 & Hb2).
    split; [exact Hx'|]. exists (n1 ++ n2).
    split; [rewrite He2, He1, app_assoc; reflexivity|].
    intros Hall. apply Forall_app in Hall as [H1 H2].
    rewrite (Hb2 H2), (Hb1 H1), Ht, <- app_assoc.
    change ((now, c) :: rest) with ([(now, c)] ++ rest).
    rewrite voiced_frames_app. reflexivity.
Qed.


(** C1 (amended): take a stream that is idle, let it receive [segment] and
    then a voiced frame [v], after which it is speaking and has sent one
    event, [start], since it was idle.  Then [start] is a Start-of-Speech,
    and the first sub-threshold frame at which the trailing silence reaches
    [silence_timeout] sends exactly one End-of-Speech, no event being sent
    before it.  The frames of that event are the at-or-above-threshold
    frames received since the stream was idle, in order; its
    [speech_duration] is the sum of their durations; its [silence_duration]
    is the trailing silence accumulated, which is at least
    [silence_timeout]; its index is that of [start]; the stream is idle
    afterwards. *)
Theorem end_of_speech_on_silence_timeout
    (s0 : VADStream) (segment : list (float * chunk))
    (tv : float) (v : AudioFrame) (start : VADEvent)
    (silents : list (float * AudioFrame)) (tl : float) (last : AudioFrame)
    (s1 : VADStream) :
  idle s0 ->
  main_loop s0 (segment ++ [(tv, Frame v)]) = Some s1 ->
  voiced s1 v ->
  _speech_started s1 = true ->
  _event_ch s1 = _event_ch s0 ++ [start] ->
  Forall (fun tf => silent s1 (snd tf)) (silents ++ [(tl, last)]) ->
  (forall j, (j < length silents)%nat ->
     PrimFloat.leb (_silence_timeout s1)
       (sum_durations (take (S j) (map snd silents))) = false) ->
  PrimFloat.leb (_silence_timeout s1)
    (sum_durations (map snd silents ++ [last])) = true ->
  type start = START_OF_SPEECH /\
  (exists s, main_loop s1 (as_input silents) = Some s /\
             _event_ch s = _event_ch s1) /\
  exists s2,
    main_loop s1 (as_input (silents ++ [(tl, last)])) = Some s2 /\
    _event_ch s2 =
      _event_ch s0 ++
      [ start;
        {| type := END_OF_SPEECH;
           samples_index := samples_index start;
           timestamp := tl;
           speech_duration :=
             sum_durations
               (voiced_frames (_threshold s1) (segment ++ [(tv, Frame v)]));
           silence_duration := sum_durations (map snd silents ++ [last]);
           frames :=
             voiced_frames (_threshold s1) (segment ++ [(tv, Frame v)]) |} ] /\
    idle s2.
Proof.
  intros Hidle Hrun1 Hv Hs Hch Hsil Hbelow Hreach.
  destruct (idle_consistent _ Hidle) as [Hc0 Hx0].
  assert (Hcons : consistent s1) by (eapply consistent_run; eauto).
  destruct (main_loop_config _ _ _ Hrun1) as (Hthr & _ & _).
  assert (Hframes : _speech_frames s1 =
            voiced_frames (_threshold s1) (segment ++ [(tv, Frame v)])).
  { destruct (main_loop_buffers _ _ _ Hx0 Hrun1) as (Hx1 & news & Hev & Hbuf).
    rewrite Hch in Hev. apply app_inv_head in Hev. subst news.
    destruct Hcons as (_ & _ & _ & _ & Hopen).
    destruct (Hopen Hs) as (sent & e & Hsent & Htype & _).
    rewrite Hch in Hsent. apply app_inj_tail in Hsent as [_ <-].
    specialize (Hbuf ltac:(repeat constructor; exact Htype)).
    unfold buffered, exclusive in *. rewrite Hs in Hx1.
    destruct Hidle as (_ & Hf0 & Hp0 & _).
    rewrite Hx1, Hf0, Hp0, app_nil_r in Hbuf. rewrite Hthr. exact Hbuf. }
  assert (Hzero : _silence_accumulated s1 = 0%float).
  { destruct (main_loop_total segment s0) as [s Hrun0].
    rewrite (main_loop_app _ _ _ _ Hrun0) in Hrun1. simpl in Hrun1.
    destruct (_process_frame tv s v) as [s1'|] eqn:Hstep; [|discriminate].
    injection Hrun1 as ->.
    apply (voiced_clears_silence tv s v s1); [|exact Hstep].
    unfold voiced in *.
    destruct (handle_chunk_config tv s (Frame v) s1 Hstep) as (<- & _).
    exact Hv. }
  apply Forall_app in Hsil as [Hsil Hlast].
  inversion Hlast as [|? ? Hlast' _]; subst. simpl in Hlast'.
  destruct (speaking_silent silents s1 Hs Hsil) as
    (s & Hrun & Hs' & Hfr & Hdu & Hix & Hacc & Hev).
  { intros j Hj. rewrite Hzero. apply Hbelow, Hj. }
  destruct Hcons as (Hsd & _ & _ & _ & Hopen).
  destruct (Hopen Hs) as (sent & e & Hsent & Htype & Hindex & _).
  rewrite Hch in Hsent. apply app_inj_tail in Hsent as [_ <-].
  split; [exact Htype|]. split; [eauto|].
  destruct (main_loop_config _ _ _ Hrun) as (Ht' & _ & Hto').
  assert (Hlast_s : silent s last).
  { unfold silent in *. rewrite Ht'. exact Hlast'. }
  unfold as_input. rewrite map_app. fold (as_input silents).
  rewrite (main_loop_app _ _ _ _ Hrun). simpl.
  rewrite (process_silent_speaking _ _ _ Hlast_s Hs'). cbv zeta.
  assert (Hsum : PrimFloat.add (_silence_accumulated s) (duration_of last) =
                 sum_durations (map snd silents ++ [last])).
  { rewrite Hacc, Hzero. unfold sum_durations.
    rewrite add_durations_snoc. reflexivity. }
  rewrite Hsum, Hto', Hreach.
  eexists. split; [reflexivity|].
  unfold _emit_end. simpl. rewrite Hs'. simpl.
  rewrite Hev, Hix, Hdu, Hfr, Hsd, Hch, <- Hframes, Hindex, <- app_assoc.
  repeat split; reflexivity.
Qed.

(** What one chunk can add to the channel. *)
Lemma handle_chunk_events now self c self' :
  handle_chunk now self c = Some self' ->
  _event_ch self' = _event_ch self \/
  exists e, _event_ch self' = _event_ch self ++ [e] /\
    (type e = END_OF_SPEECH \/
     (type e = START_OF_SPEECH /\
      exists frame, c = Frame frame /\
        speech_duration e = 0%float /\ silence_duration e = 0%float /\
        samples_index e = _samples_index self /\
        timestamp e = now /\
        _speech_duration self' =
          PrimFloat.add (_pending_duration self) (duration_of frame) /\
        PrimFloat.leb (_min_speech_duration self) (_speech_duration self')
        = true)).
Proof.
  intros H. destruct c as [frame|]; simpl in H.
  - destruct (voiced_or_silent self frame) as [Hv|Hv];
      destruct (_speech_started self) eqn:Hs.
    + rewrite (process_voiced_speaking _ _ _ Hv Hs) in H. injection H as <-.
      left. reflexivity.
    + destruct (PrimFloat.leb (_min_speech_duration self)
                  (PrimFloat.add (_pending_duration self) (duration_of frame)))
        eqn:Hd.
      * rewrite (process_voiced_start _ _ _ Hv Hs Hd) in H. injection H as <-.
        right. eexists. split; [reflexivity|]. right. simpl.
        split; [reflexivity|]. exists frame. auto 10.
      * rewrite (process_voiced_candidate _ _ _ Hv Hs Hd) in H.
        injection H as <-. left. reflexivity.
    + rewrite (process_silent_speaking _ _ _ Hv Hs) in H. injection H as <-.
      cbv zeta. destruct (PrimFloat.leb _ _); [|left; reflexivity].
      right. unfold _emit_end. simpl. rewrite Hs. simpl.
      eexists. split; [reflexivity|]. left. reflexivity.
    + rewrite (process_silent_not_speaking _ _ _ Hv Hs) in H.
      injection H as <-. left. reflexivity.
  - injection H as <-. destruct (_speech_started self) eqn:Hs;
      [|left; reflexivity].
    right. unfold _emit_end. rewrite Hs. simpl.
    eexists. split; [reflexivity|]. left. reflexivity.
Qed.

(** C10: every Start-of-Speech a stream has sent carries zero speech and
    silence durations, although the candidate duration that opened the
    segment, kept by the stream as its speech duration, is at least
    [min_speech_duration]; it was sent while handling one frame of the
    input, and its [samples_index] is the number of samples in the input
    before that frame. *)
Theorem start_of_speech_event_fields
    (vad : SimpleEnergyVAD) (input : list (float * chunk))
    (self : VADStream) (e : VADEvent) :
  main_loop (stream vad) input = Some self ->
  In e (_event_ch self) ->
  type e = START_OF_SPEECH ->
  speech_duration e = 0%float /\
  silence_duration e = 0%float /\
  exists pre now frame post before after,
    input = pre ++ (now, Frame frame) :: post /\
    main_loop (stream vad) pre = Some before /\
    _process_frame now before frame = Some after /\
    _event_ch after = _event_ch before ++ [e] /\
    samples_index e = total_samples pre /\
    timestamp e = now /\
    _speech_duration after =
      PrimFloat.add (_pending_duration before) (duration_of frame) /\
    PrimFloat.leb (vad_min_speech_duration vad) (_speech_duration after)
    = true.
Proof.
  revert self e. induction input as [|[now c] input IH] using rev_ind;
    intros self e Hrun Hin Htype.
  - injection Hrun as <-. destruct Hin.
  - destruct (main_loop_total input (stream vad)) as [before Hbefore].
    rewrite (main_loop_app _ _ _ _ Hbefore) in Hrun. simpl in Hrun.
    destruct (handle_chunk now before c) as [after|] eqn:Hstep;
      [|discriminate].
    injection Hrun as ->.
    assert (Hold : In e (_event_ch before) ->
              speech_duration e = 0%float /\ silence_duration e = 0%float /\
              exists pre now0 frame post before0 after0,
                input ++ [(now, c)] = pre ++ (now0, Frame frame) :: post /\
                main_loop (stream vad) pre = Some before0 /\
                _process_frame now0 before0 frame = Some after0 /\
                _event_ch after0 = _event_ch before0 ++ [e] /\
                samples_index e = total_samples pre /\
                timestamp e = now0 /\
                _speech_duration after0 =
                  PrimFloat.add (_pending_duration before0) (duration_of frame) /\
                PrimFloat.leb (vad_min_speech_duration vad)
                  (_speech_duration after0) = true).
    { intros Hin'.
      destruct (IH before e Hbefore Hin' Htype) as
        (H1 & H2 & pre & now0 & frame & post & b0 & a0 & -> & Hrest).
      split; [exact H1|]. split; [exact H2|].
      exists pre, now0, frame, (post ++ [(now, c)]), b0, a0.
      split; [|exact Hrest]. rewrite <- app_assoc. reflexivity. }
    destruct (handle_chunk_events _ _ _ _ Hstep) as [Hsame|(e' & Hadd & Hkind)].
    + rewrite Hsame in Hin. auto.
    + rewrite Hadd in Hin. apply in_app_or in Hin as [Hin|[<-|[]]]; [auto|].
      destruct Hkind as [Hend|(_ & frame & -> & H1 & H2 & H3 & H4 & H5 & H6)];
        [congruence|].
      split; [exact H1|]. split; [exact H2|].
      exists input, now, frame, [], before, self.
      destruct (main_loop_config _ _ _ Hbefore) as (_ & Hm & _).
      simpl in Hm. rewrite Hm in H6.
      rewrite (main_loop_samples _ _ _ Hbefore) in H3. simpl in H3.
      repeat split; auto.
Qed.

(** C4: a flush, or the close of the input, that finds a segment open sends
    exactly one End-of-Speech carrying the speech and silence durations
    accumulated so far, whatever the trailing silence, and leaves the
    stream idle; one that finds no segment open sends nothing and leaves
    the stream as it was. *)
Theorem flush_closes_open_segment
    (self0 : VADStream) (input : list (float * chunk)) (self : VADStream)
    (now : float) :
  main_loop self0 input = Some self ->
  let closing :=
    {| type := END_OF_SPEECH;
       samples_index := _speech_start_index self;
       timestamp := now;
       speech_duration := _speech_duration self;
       silence_duration := _silence_accumulated self;
       frames := _speech_frames self |} in
  (_speech_started self = true ->
   exists self',
     main_loop self0 (input ++ [(now, FlushSentinel)]) = Some self' /\
     _main_task self0 input now = Some self' /\
     _event_ch self' = _event_ch self ++ [closing] /\
     idle self') /\
  (_speech_started self = false ->
   main_loop self0 (input ++ [(now, FlushSentinel)]) = Some self /\
   _main_task self0 input now = Some self).
Proof.
  intros Hrun closing. unfold _main_task.
  rewrite (main_loop_app _ _ _ _ Hrun), Hrun. simpl.
  split; intros Hs; rewrite Hs.
  - eexists. split; [reflexivity|]. split; [reflexivity|].
    unfold _emit_end, idle. rewrite Hs. simpl. auto 10.
  - auto.
Qed.


(** ** The amplitude is the peak of the complete samples *)





Lemma peak_nonneg (samples : list Z) : 0 <= peak samples.
Proof. induction samples; simpl; [lia|]. fold (peak samples). lia. Qed.


(** ** Frames as the library hands them over *)


(** Reading [frame.duration] at a zero rate raises before
    [_process_frame] gets to its own test of [frame.sample_rate]. *)
Lemma zero_rate_duration_raises now self (o : FrameObject) :
  obj_sample_rate o = 0 -> process_frame_object now self o = None.
Proof.
  intros Hrate.
  unfold process_frame_object, attributes_of, duration_property, truediv.
  rewrite Hrate. reflexivity.
Qed.


(** ** The theorems at sample inputs *)

(** Two voiced eighths and a voiced quarter against a 250 ms gate: the
    second frame opens the segment. *)
Lemma start_of_speech_once_witness :
  exists self,
    main_loop (stream sample_vad)
      (as_input (take 3 [(1%float, voiced_eighth); (2%float, voiced_eighth);
                         (3%float, voiced_quarter)])) = Some self /\
    _event_ch self =
      [ {| type := START_OF_SPEECH;
           samples_index := 1;
           timestamp := 2%float;
           speech_duration := 0%float;
           silence_duration := 0%float;
           frames := [voiced_eighth; voiced_eighth] |} ].
Proof.
  apply (start_of_speech_once sample_vad
           [(1%float, voiced_eighth); (2%float, voiced_eighth);
            (3%float, voiced_quarter)] 1 2%float voiced_eighth).
  - repeat constructor; vm_compute; discriminate.
  - reflexivity.
  - intros [|j] Hj; [vm_compute; reflexivity | lia].
  - vm_compute. reflexivity.
Defined.

(** An eighth of a second of speech, a quiet quarter second and another
    eighth of speech open a segment at the third frame; a further eighth of
    speech, then two quiet quarter seconds against a 375 ms timeout, close
    it.  The quiet frame received before the segment opened is not among
    its frames. *)
Lemma end_of_speech_on_silence_timeout_witness :
  main_loop (stream sample_vad)
    (interrupted_input ++ [(4%float, Frame voiced_eighth)])
  = Some interrupted_sample /\
  exists s2,
    main_loop interrupted_sample
      (as_input ([(5%float, quiet_quarter)] ++ [(6%float, quiet_quarter)]))
    = Some s2 /\
    map type (_event_ch s2) = [START_OF_SPEECH; END_OF_SPEECH] /\
    map frames (_event_ch s2) =
      [ [voiced_eighth; voiced_eighth];
        [voiced_eighth; voiced_eighth; voiced_eighth] ] /\
    map speech_duration (_event_ch s2) = [0%float; 0.375%float] /\
    map silence_duration (_event_ch s2) = [0%float; 0.5%float] /\
    idle s2.
Proof.
  split; [vm_compute; reflexivity|].
  destruct (end_of_speech_on_silence_timeout (stream sample_vad)
              interrupted_input 4%float voiced_eighth
              {| type := START_OF_SPEECH; samples_index := 3;
                 timestamp := 3%float; speech_duration := 0%float;
                 silence_duration := 0%float;
                 frames := [voiced_eighth; voiced_eighth] |}
              [(5%float, quiet_quarter)] 6%float quiet_quarter
              interrupted_sample)
    as (_ & _ & s2 & Hrun & Hev & Hidle).
  - vm_compute. repeat split; reflexivity.
  - vm_compute. reflexivity.
  - vm_compute. discriminate.
  - reflexivity.
  - reflexivity.
  - repeat constructor; vm_compute; reflexivity.
  - intros [|j] Hj; [vm_compute; reflexivity | simpl in Hj; lia].
  - vm_compute. reflexivity.
  - exists s2. split; [exact Hrun|]. rewrite Hev.
    repeat split; try apply Hidle; vm_compute; reflexivity.
Defined.

(** C1 as stated fails: on [overshoot_input] the End-of-Speech reports
    500 ms of silence, the timeout being 375 ms. *)
Lemma silence_duration_exceeds_timeout :
  exists self sos eos,
    main_loop (stream sample_vad) overshoot_input = Some self /\
    _event_ch self = [sos; eos] /\
    type sos = START_OF_SPEECH /\
    type eos = END_OF_SPEECH /\
    silence_duration eos = 0.5%float /\
    vad_silence_timeout sample_vad = 0.375%float /\
    silence_duration eos <> vad_silence_timeout sample_vad.
Proof.
  vm_compute. eexists _, _, _.
  split; [reflexivity|]. split; [reflexivity|].
  repeat split.
  intros H. apply (f_equal (fun x => PrimFloat.leb x 0.375%float)) in H.
  vm_compute in H. discriminate.
Qed.

(** The Start-of-Speech sent for [voiced_half]. *)
Lemma start_of_speech_event_fields_witness :
  exists e,
    In e (_event_ch speaking_sample) /\
    speech_duration e = 0%float /\ silence_duration e = 0%float /\
    samples_index e = 0.
Proof.
  exists {| type := START_OF_SPEECH; samples_index := 0; timestamp := 1%float;
            speech_duration := 0%float; silence_duration := 0%float;
            frames := [voiced_half] |}.
  split; [left; reflexivity|].
  destruct (start_of_speech_event_fields sample_vad
              [(1%float, Frame voiced_half)] speaking_sample
              {| type := START_OF_SPEECH; samples_index := 0;
                 timestamp := 1%float;
                 speech_duration := 0%float; silence_duration := 0%float;
                 frames := [voiced_half] |})
    as (H1 & H2 & _).
  - vm_compute. reflexivity.
  - left. reflexivity.
  - reflexivity.
  - auto.
Defined.

(** A flush after speech closes the segment; a flush after silence does
    nothing. *)
Lemma flush_closes_open_segment_witness :
  (exists self',
     main_loop (stream sample_vad)
       ([(1%float, Frame voiced_half)] ++ [(2%float, FlushSentinel)])
     = Some self' /\
     _main_task (stream sample_vad) [(1%float, Frame voiced_half)] 2%float
     = Some self' /\
     map type (_event_ch self') = [START_OF_SPEECH; END_OF_SPEECH] /\
     idle self') /\
  main_loop (stream sample_vad)
    ([(1%float, Frame quiet_quarter)] ++ [(2%float, FlushSentinel)])
  = Some (advance_samples 2 (stream sample_vad)).
Proof.
  split.
  - destruct (flush_closes_open_segment (stream sample_vad)
                [(1%float, Frame voiced_half)] speaking_sample 2%float)
      as [Hopen _]; [vm_compute; reflexivity|].
    destruct (Hopen eq_refl) as (self' & H1 & H2 & H3 & H4).
    exists self'. rewrite H3. auto.
  - destruct (flush_closes_open_segment (stream sample_vad)
                [(1%float, Frame quiet_quarter)]
                (advance_samples 2 (stream sample_vad)) 2%float)
      as [_ Hclosed]; [vm_compute; reflexivity|].
    apply (Hclosed eq_refl).
Defined.



End VadFacts.

(* ===================================================================== *)
(** * Properties of the transcription adapter *)
(* ===================================================================== *)

Section SttFacts.
Import Py Stt.

(** Induction over a body and everything nested in it. *)
Lemma json_nested_ind (P : json -> Prop) :
  P JNull -> (forall b, P (JBool b)) -> (forall n, P (JNum n)) ->
  (forall s, P (JStr s)) ->
  (forall items, Forall P items -> P (JList items)) ->
  (forall entries, Forall (fun kv => P (snd kv)) entries -> P (JDict entries)) ->
  forall body, P body.
Proof.
  intros Hnull Hbool Hnum Hstr Hlist Hdict.
  fix IH 1. intros [| b | n | s | items | entries].
  - exact Hnull.
  - apply Hbool.
  - apply Hnum.
  - apply Hstr.
  - apply Hlist. induction items as [|x items IHitems]; constructor;
      [apply IH | exact IHitems].
  - apply Hdict. induction entries as [|[k v] entries IHentries]; constructor;
      [apply IH | exact IHentries].
Qed.

Lemma with_entry_get {B : Type} key (found : json -> B) absent entries :
  with_entry key found absent entries =
  match dict_get entries key with
  | Some v => found v
  | None => absent
  end.
Proof.
  induction entries as [|[k v] rest IH]; simpl; [reflexivity|].
  destruct (String.eqb k key); [reflexivity | exact IH].
Qed.

(** A loop with early return yields the first element of the list of all
    the matches, as long as each step yields the first match of its own
    list and matches are never empty. *)
Lemma first_candidate_head {A : Type} (f : A -> option string)
    (g : A -> list string) (xs : list A) :
  Forall (fun x => f x = head (g x) /\ Forall (fun c => str_truthy c = true) (g x)) xs ->
  first_candidate f xs = head (flat_map g xs).
Proof.
  induction 1 as [|x rest [Hf Hg] _ IH]; simpl; [reflexivity|].
  rewrite Hf. destruct (g x) as [|c cs]; simpl; [exact IH|].
  inversion Hg as [|? ? Hc _]; subst. rewrite Hc. reflexivity.
Qed.

Lemma flat_map_truthy {A : Type} (g : A -> list string) (xs : list A) :
  Forall (fun x => Forall (fun c => str_truthy c = true) (g x)) xs ->
  Forall (fun c => str_truthy c = true) (flat_map g xs).
Proof.
  induction 1; simpl; [constructor|]. apply Forall_app. auto.
Qed.

Lemma text_at_truthy entries key t :
  text_at entries key = Some t -> str_truthy t = true.
Proof.
  unfold text_at. destruct (dict_get entries key) as [[]|]; try discriminate.
  destruct (str_truthy (strip s)) eqn:E; [|discriminate].
  intros [= <-]. exact E.
Qed.

Lemma extract_dict entries :
  _extract_transcription (JDict entries) =
  match first_candidate (text_at entries) text_keys with
  | Some text => Some text
  | None =>
      first_candidate
        (fun key =>
           with_entry key
             (fun value =>
                match value with
                | JList items => first_candidate _extract_transcription items
                | _ => None
                end)
             None entries)
        list_keys
  end.
Proof. reflexivity. Qed.

Lemma matches_dict entries :
  matches_in_order (JDict entries) =
  flat_map
    (fun key => match text_at entries key with Some t => [t] | None => [] end)
    text_keys
  ++
  flat_map
    (fun key =>
       with_entry key
         (fun value =>
            match value with
            | JList items => flat_map matches_in_order items
            | _ => []
            end)
         [] entries)
    list_keys.
Proof. reflexivity. Qed.

Lemma extract_is_first_match (body : json) :
  _extract_transcription body = head (matches_in_order body) /\
  Forall (fun c => str_truthy c = true) (matches_in_order body).
Proof.
  induction body as [| b | n | s | items IH | entries IH] using json_nested_ind.
  - split; [reflexivity | constructor].
  - split; [reflexivity | constructor].
  - split; [reflexivity | constructor].
  - simpl. destruct (str_truthy (strip s)) eqn:E; simpl;
      split; try reflexivity; repeat constructor; exact E.
  - simpl. split.
    + apply first_candidate_head. exact IH.
    + apply flat_map_truthy. eapply Forall_impl; [exact IH|].
      intros x [_ H]. exact H.
  - rewrite extract_dict, matches_dict.
    set (direct := fun key =>
           match text_at entries key with Some t => [t] | None => [] end).
    set (nested := fun key =>
           with_entry key
             (fun value =>
                match value with
                | JList items => flat_map matches_in_order items
                | _ => []
                end) [] entries).
    assert (Hdirect : Forall (fun key => text_at entries key = head (direct key) /\
                        Forall (fun c => str_truthy c = true) (direct key)) text_keys).
    { apply Forall_forall. intros key _. unfold direct.
      destruct (text_at entries key) as [t|] eqn:E; simpl.
      - split; [reflexivity|]. repeat constructor.
        eapply text_at_truthy, E.
      - split; [reflexivity | constructor]. }
    assert (Hnested : Forall (fun key =>
               with_entry key
                 (fun value =>
                    match value with
                    | JList items => first_candidate _extract_transcription items
                    | _ => None
                    end) None entries = head (nested key) /\
               Forall (fun c => str_truthy c = true) (nested key)) list_keys).
    { apply Forall_forall. intros key _. unfold nested.
      clear direct Hdirect nested.
      induction IH as [|[k v] rest Hv _ IHrest]; simpl.
      - split; [reflexivity | constructor].
      - destruct (String.eqb k key); [|exact IHrest].
        simpl in Hv. destruct v; try (split; [reflexivity | constructor]).
        (* the value is a list: its items are covered by the hypothesis *)
        simpl in Hv. destruct Hv as [Hhead Hall]. split; assumption. }
    rewrite (first_candidate_head _ _ _ Hdirect).
    rewrite (first_candidate_head _ _ _ Hnested).
    split.
    + destruct (flat_map direct text_keys) as [|c cs]; reflexivity.
    + apply Forall_app. split; apply flat_map_truthy.
      * eapply Forall_impl; [exact Hdirect|]. intros x [_ H]. exact H.
      * eapply Forall_impl; [exact Hnested|]. intros x [_ H]. exact H.
Qed.

(** C5: the transcript extracted from a body is the first of its
    non-empty matches in traversal order: direct keys [text],
    [transcript], [transcription], [result], [output] of the top-level
    value first, then the elements of its list-valued keys [segments],
    [alternatives], [data], each searched the same way; nothing is
    extracted exactly when there is no match, and what is extracted is
    never empty.  The two bodies of the specification give [hi] and
    [ok]. *)
Theorem transcript_is_first_match_in_order :
  (forall body, _extract_transcription body = head (matches_in_order body)) /\
  (forall body t, In t (matches_in_order body) -> t <> ""%string) /\
  (forall entries t,
     first_candidate (text_at entries) text_keys = Some t ->
     _extract_transcription (JDict entries) = Some t) /\
  _extract_transcription segments_body = Some "hi"%string /\
  _extract_transcription sequence_body = Some "ok"%string.
Proof.
  split; [intros body; apply extract_is_first_match|].
  split.
  - intros body t Hin ->.
    destruct (extract_is_first_match body) as [_ Hall].
    rewrite Forall_forall in Hall. apply list_elem_of_In in Hin.
    specialize (Hall _ Hin). discriminate.
  - split; [|split; reflexivity].
    intros entries t H. rewrite extract_dict, H. reflexivity.
Qed.

(** C6: a 2xx response whose body holds no transcript makes
    [_recognize_impl] return, not raise: a final-transcript event with no
    alternatives, the audio duration and the request id of the
    response. *)
Theorem empty_transcript_is_a_result
    (opts : DrascomSttOptions) (post : Request -> HttpOutcome)
    (wav_bytes : list byte) (audio_duration : float) (hint : option string)
    (conn_timeout : float) (response : Response) :
  post (recognize_request opts wav_bytes hint conn_timeout) = Responded response ->
  200 <= status_code response <= 299 ->
  _extract_transcription (response_body response) = None ->
  _recognize_impl opts post wav_bytes audio_duration hint conn_timeout =
  inr {| se_type := FINAL_TRANSCRIPT;
         se_request_id :=
           default ""%string (headers response !! "x-request-id"%string);
         alternatives := [];
         recognition_usage := audio_duration |}.
Proof.
  intros Hpost Hcode Hnone. unfold _recognize_impl.
  rewrite Hpost.
  assert (Hok : is_success response = true).
  { unfold is_success. apply andb_true_iff. split; apply Z.leb_le; lia. }
  rewrite Hok, Hnone. reflexivity.
Qed.

(** A 200 response with a blank plain-text body. *)
Lemma empty_transcript_is_a_result_witness :
  _recognize_impl sample_opts (fun _ => Responded blank_response)
    [] 0.5%float None 30%float =
  inr {| se_type := FINAL_TRANSCRIPT;
         se_request_id := "r-1";
         alternatives := [];
         recognition_usage := 0.5%float |}.
Proof.
  apply (empty_transcript_is_a_result sample_opts
           (fun _ => Responded blank_response) [] 0.5%float None 30%float
           blank_response).
  - reflexivity.
  - simpl. lia.
  - reflexivity.
Defined.

End SttFacts.

(* ===================================================================== *)
(** * Properties of the synthesis adapter *)
(* ===================================================================== *)

Section TtsFacts.
Import Py Tts.

(** C7 (amended): [update_options] given only a non-empty voice sets the
    voice and nothing else, and the request of the next [synthesize] is
    built from the old model, speed and format with the new voice; given
    only an empty voice it leaves the adapter as it was. *)
Theorem update_voice_only
    (self : DrascomTTS) (v : string) (input_text : string)
    (conn_timeout : float) :
  v <> ""%string ->
  let self' := update_options self None (Some v) None None in
  voice (_opts self') = v /\
  model (_opts self') = model (_opts self) /\
  speed (_opts self') = speed (_opts self) /\
  response_format (_opts self') = response_format (_opts self) /\
  base_url (_opts self') = base_url (_opts self) /\
  api_key (_opts self') = api_key (_opts self) /\
  timeout (_opts self') = timeout (_opts self) /\
  sample_rate self' = sample_rate self /\
  num_channels self' = num_channels self /\
  run_request self' input_text conn_timeout =
    {| url := base_url (_opts self) +:+ SPEECH_TTS_ENDPOINT;
       payload :=
         {| p_model := model (_opts self);
            p_voice := v;
            p_input := input_text;
            p_response_format := response_format (_opts self);
            p_speed := speed (_opts self) |};
       request_timeout := conn_timeout |} /\
  update_options self None (Some ""%string) None None = self.
Proof.
  intros Hv self'. subst self'.
  assert (Hgiven : given (Some v) = true).
  { destruct v; [congruence | reflexivity]. }
  unfold update_options, run_request. rewrite Hgiven. simpl.
  repeat (split; [reflexivity|]).
  destruct self as [[] ? ?]. reflexivity.
Qed.

(** Switching the sample adapter to another voice. *)
Lemma update_voice_only_witness :
  run_request (update_options sample_tts None (Some "amy"%string) None None)
    "hello" 30%float =
  {| url := "http://speech.local/v1/audio/speech";
     payload :=
       {| p_model := "speaches-ai/piper-en_GB-jenny_dioco-medium";
          p_voice := "amy";
          p_input := "hello";
          p_response_format := "mp3";
          p_speed := 1%float |};
     request_timeout := 30%float |}.
Proof.
  destruct (update_voice_only sample_tts "amy" "hello" 30%float)
    as (_ & _ & _ & _ & _ & _ & _ & _ & _ & H & _); [discriminate|].
  exact H.
Defined.

(** C7 as stated fails: an empty voice is not applied, the next request
    still carries the old one. *)
Lemma empty_voice_is_not_applied :
  update_options sample_tts None (Some ""%string) None None = sample_tts /\
  p_voice (payload (run_request
                      (update_options sample_tts None (Some ""%string) None None)
                      "hello" 30%float)) = "jenny_dioco"%string /\
  "jenny_dioco"%string <> ""%string.
Proof. split; [reflexivity|]. split; [reflexivity | discriminate]. Qed.

End TtsFacts.

(* ===================================================================== *)
(** * Properties of the session registry *)
(* ===================================================================== *)

Section RegistryFacts.
Import Registry.

Lemma register_runs room user_id name sh ah meta now reg :
  _room_lock reg = false ->
  let session :=
    {| room_name := room; user_identity := user_id; user_name := name;
       created_at := now; agent_session := sh; agent := ah;
       metadata := match meta with Some (entry :: rest) => entry :: rest | _ => [] end |} in
  register room user_id name sh ah meta now reg =
  Some (session,
        {| _sessions := <[room := session]> (_sessions reg);
           _room_lock := false;
           _greeting_times := _greeting_times reg |},
        [Acquire; WriteSessions room; Release]).
Proof.
  intros Hfree session.
  unfold register, with_room_lock, bind, acquire. rewrite Hfree. reflexivity.
Qed.

Lemma unregister_runs room reg :
  _room_lock reg = false ->
  unregister room reg =
  Some (_sessions reg !! room,
        {| _sessions := delete room (_sessions reg);
           _room_lock := false;
           _greeting_times := _greeting_times reg |},
        [Acquire; WriteSessions room; Release]).
Proof.
  intros Hfree.
  unfold unregister, with_room_lock, bind, acquire. rewrite Hfree. reflexivity.
Qed.









(** ** Tasks on one event loop *)

Lemma spawn_calls (calls : list call) : task_call <$> spawn calls = calls.
Proof.
  unfold spawn. rewrite <- list_fmap_compose.
  induction calls as [|c rest IH]; simpl; [reflexivity|]. f_equal. exact IH.
Qed.

Lemma spawn_outstanding (calls : list call) : outstanding (spawn calls) = calls.
Proof.
  induction calls as [|c rest IH]; simpl; [reflexivity|]. f_equal. exact IH.
Qed.

Lemma owned_spawn (calls : list call) (reg : SessionRegistry) :
  _room_lock reg = false -> owned None (spawn calls) reg.
Proof.
  intros Hfree. unfold owned, spawn. split; [|split; [|exact Hfree]].
  - intros i t H. apply list_lookup_fmap_Some in H as (c & -> & _).
    split; discriminate.
  - intros i t H Hin.
    apply list_lookup_fmap_Some in H as (c & -> & _). discriminate.
Qed.

Lemma turn_stretch i pool reg pool1 reg1 e1 :
  turn i pool reg = Some (pool1, reg1, e1) -> stretch i pool reg pool1 reg1 e1.
Proof.
  unfold turn. destruct (pool !! i) as [[c st]|] eqn:Hi; [|discriminate].
  destruct c as [o | user now]; destruct st as [| | r | r];
    unfold task_step; simpl; try discriminate.
  - unfold bind, acquire. destruct (_room_lock reg) eqn:Hlock; [discriminate|].
    simpl. intros [= <- <- <-]. apply (stretch_acquire i pool reg o Hi Hlock).
  - destruct o as [room uid name sh ah meta now | room]; simpl;
      intros [= <- <- <-].
    + eapply (stretch_body i pool reg _ _ _ room Hi). reflexivity.
    + eapply (stretch_body i pool reg _ _ _ room Hi). reflexivity.
  - intros [= <- <- <-]. apply (stretch_release i pool reg o r Hi).
  - intros [= <- <- <-]. apply (stretch_greeting i pool reg user now Hi).
Qed.


Lemma locked_body_runs o reg r reg' room :
  locked_body o reg = Some (r, reg', [WriteSessions room]) ->
  _room_lock reg' = _room_lock reg /\
  _greeting_times reg' = _greeting_times reg /\
  exists e,
    run_call (SessionCall o) (unlocked reg) = Some (r, unlocked reg', e).
Proof.
  destruct o as [room' uid name sh ah meta now | room']; simpl;
    intros [= <- <- <-]; (split; [reflexivity|]); (split; [reflexivity|]).
  - unfold bind. rewrite register_runs by reflexivity. cbv zeta.
    eexists. reflexivity.
  - unfold bind. rewrite unregister_runs by reflexivity.
    eexists. reflexivity.
Qed.

(** ** The lock has one holder *)

Lemma owned_insert owner owner1 i t t' pool reg reg1 :
  owned owner pool reg ->
  pool !! i = Some t ->
  (in_lock t' = true <-> owner1 = Some i) ->
  (forall k, k <> i -> (owner = Some k <-> owner1 = Some k)) ->
  (in_lock t' = true -> exists o, task_call t' = SessionCall o) ->
  _room_lock reg1 = match owner1 with Some _ => true | None => false end ->
  owned owner1 (<[i := t']> pool) reg1.
Proof.
  intros (Hin & Hcall & Hlock) Hi Hnew Hothers Hcall' Hlock1.
  split; [|split].
  - intros k tk Hk. apply list_lookup_insert_Some in Hk as [(<- & <- & _)|[Hne Hk]].
    + exact Hnew.
    + rewrite (Hin k tk Hk). apply Hothers. congruence.
  - intros k tk Hk. apply list_lookup_insert_Some in Hk as [(<- & <- & _)|[Hne Hk]].
    + exact Hcall'.
    + apply (Hcall k tk Hk).
  - destruct owner1 as [j|]; [|exact Hlock1]. split; [exact Hlock1|].
    apply list_lookup_insert_is_Some.
    destruct (decide (j = i)) as [->|Hne]; [eauto|].
    assert (Hj : owner = Some j) by (apply Hothers; [exact Hne | reflexivity]).
    rewrite Hj in Hlock. apply Hlock.
Qed.

Lemma stretch_owned owner i pool reg pool1 reg1 e1 :
  owned owner pool reg ->
  stretch i pool reg pool1 reg1 e1 ->
  exists owner1, owned owner1 pool1 reg1 /\
    forall rest, lock_protocol owner1 rest = true ->
                 lock_protocol owner (e1 ++ rest) = true.
Proof.
  intros Ho Hst. pose proof Ho as (Hin & Hcall & Hlock).
  destruct Hst as [o Hi Hfree | o r reg' room Hi Hbody | o r Hi | user now Hi].
  - assert (Hnone : owner = None).
    { destruct owner as [j|]; [|reflexivity].
      destruct Hlock as [Hheld _]. congruence. }
    subst owner. exists (Some i). split.
    + apply (owned_insert None (Some i) i _ _ pool reg _ Ho Hi).
      * split; reflexivity.
      * intros k Hk. split; [discriminate | congruence].
      * intros _. exists o. reflexivity.
      * reflexivity.
    + intros rest Hrest. exact Hrest.
  - assert (Hown : owner = Some i) by (apply (Hin i _ Hi); reflexivity).
    subst owner. exists (Some i).
    destruct (locked_body_runs _ _ _ _ _ Hbody) as (Hsame & _).
    split.
    + apply (owned_insert (Some i) (Some i) i _ _ pool reg _ Ho Hi).
      * split; reflexivity.
      * intros k Hk. reflexivity.
      * intros _. exists o. reflexivity.
      * rewrite Hsame. apply Hlock.
    + intros rest Hrest. simpl. rewrite Nat.eqb_refl. exact Hrest.
  - assert (Hown : owner = Some i) by (apply (Hin i _ Hi); reflexivity).
    subst owner. exists None. split.
    + apply (owned_insert (Some i) None i _ _ pool reg _ Ho Hi).
      * split; discriminate.
      * intros k Hk. split; [congruence | discriminate].
      * discriminate.
      * reflexivity.
    + intros rest Hrest. simpl. rewrite Nat.eqb_refl. exact Hrest.
  - assert (Hnot : owner <> Some i).
    { intros Hown. apply (Hin i _ Hi) in Hown. discriminate. }
    exists owner. split.
    + apply (owned_insert owner owner i _ _ pool reg _ Ho Hi).
      * split; [discriminate | contradiction].
      * intros k Hk. reflexivity.
      * discriminate.
      * simpl. destruct owner; [apply Hlock | exact Hlock].
    + intros rest Hrest. exact Hrest.
Qed.

(** ** The writes happen as in a serial order *)

Lemma stretch_calls i pool reg pool1 reg1 e1 :
  stretch i pool reg pool1 reg1 e1 ->
  task_call <$> pool1 = task_call <$> pool.
Proof.
  intros Hst.
  destruct Hst as [o Hi Hfree | o r reg' room Hi Hbody | o r Hi | user now Hi];
    rewrite list_fmap_insert; apply list_insert_id;
    rewrite list_lookup_fmap, Hi; reflexivity.
Qed.

Lemma stretch_serial i pool reg pool1 reg1 e1 :
  stretch i pool reg pool1 reg1 e1 ->
  run_calls (committed (task_call <$> pool) e1) (unlocked reg)
  = Some (unlocked reg1).
Proof.
  intros Hst.
  destruct Hst as [o Hi Hfree | o r reg' room Hi Hbody | o r Hi | user now Hi];
    unfold committed; cbn [flat_map snd fst is_write app];
    try reflexivity; rewrite list_lookup_fmap, Hi;
    cbn [fmap option_fmap option_map task_call app run_calls].
  - destruct (locked_body_runs _ _ _ _ _ Hbody) as (_ & _ & e & ->).
    reflexivity.
  - reflexivity.
Qed.

Lemma run_calls_app (l1 l2 : list call) :
  forall reg reg1, run_calls l1 reg = Some reg1 ->
  run_calls (l1 ++ l2) reg = run_calls l2 reg1.
Proof.
  induction l1 as [|c rest IH]; intros reg reg1 H; simpl in *.
  - congruence.
  - destruct (run_call c reg) as [[[r reg'] e]|]; [eauto | discriminate].
Qed.

Lemma outstanding_insert (pool : list task) :
  forall i t t', pool !! i = Some t ->
  (if unwritten t' then [task_call t'] else []) ++ outstanding pool
  ≡ₚ (if unwritten t then [task_call t] else [])
     ++ outstanding (<[i := t']> pool).
Proof.
  induction pool as [|x rest IH]; intros i t t' Hi; [discriminate|].
  destruct i as [|i]; simpl in Hi.
  - injection Hi as ->. simpl.
    destruct (unwritten t), (unwritten t'); simpl; try reflexivity.
    apply perm_swap.
  - simpl. fold (outstanding rest). fold (outstanding (<[i := t']> rest)).
    specialize (IH i t t' Hi).
    rewrite !(Permutation_app_swap_app _ (if unwritten x then _ else _)).
    rewrite IH. reflexivity.
Qed.

Lemma stretch_outstanding i pool reg pool1 reg1 e1 :
  stretch i pool reg pool1 reg1 e1 ->
  committed (task_call <$> pool) e1 ++ outstanding pool1 ≡ₚ outstanding pool.
Proof.
  intros Hst.
  destruct Hst as [o Hi Hfree | o r reg' room Hi Hbody | o r Hi | user now Hi];
    unfold committed; simpl;
    try (rewrite list_lookup_fmap, Hi; simpl);
    match goal with
    | |- context [<[i := ?t']> pool] =>
        pose proof (outstanding_insert pool i _ t' Hi) as H
    end; simpl in H; symmetry;
    first [exact H | exact (Permutation_cons_inv H)].
Qed.

(** What every run of the event loop keeps. *)
Lemma run_schedule_serial (schedule : list nat) :
  forall owner pool reg pool' reg' trace,
  owned owner pool reg ->
  run_schedule schedule pool reg = Some (pool', reg', trace) ->
  (exists owner', owned owner' pool' reg') /\
  lock_protocol owner trace = true /\
  task_call <$> pool' = task_call <$> pool /\
  run_calls (committed (task_call <$> pool) trace) (unlocked reg)
  = Some (unlocked reg') /\
  committed (task_call <$> pool) trace ++ outstanding pool'
  ≡ₚ outstanding pool.
Proof.
  induction schedule as [|i rest IH];
    intros owner pool reg pool' reg' trace Ho Hrun; simpl in Hrun.
  - injection Hrun as <- <- <-. simpl. eauto 10.
  - destruct (turn i pool reg) as [[[pool1 reg1] e1]|] eqn:Hturn;
      [|discriminate].
    destruct (run_schedule rest pool1 reg1) as [[[pool2 reg2] e2]|] eqn:Hrest;
      [|discriminate].
    injection Hrun as <- <- <-.
    apply turn_stretch in Hturn.
    destruct (stretch_owned _ _ _ _ _ _ _ Ho Hturn) as (owner1 & Ho1 & Hproto).
    destruct (IH _ _ _ _ _ _ Ho1 Hrest) as (Hown & Hp & Hc & Hs & Hout).
    pose proof (stretch_calls _ _ _ _ _ _ Hturn) as Hc1.
    rewrite Hc1 in Hc, Hs, Hout.
    split; [exact Hown|]. split; [apply Hproto, Hp|].
    split; [exact Hc|].
    unfold committed in *. rewrite flat_map_app.
    fold (committed (task_call <$> pool) e1).
    fold (committed (task_call <$> pool) e2) in Hs, Hout |- *.
    split.
    + rewrite (run_calls_app _ _ _ _ (stretch_serial _ _ _ _ _ _ Hturn)).
      exact Hs.
    + rewrite <- app_assoc, Hout.
      apply (stretch_outstanding _ _ _ _ _ _ Hturn).
Qed.


Lemma owned_progress owner pool reg i t :
  owned owner pool reg ->
  pool !! i = Some t -> returned t = false ->
  exists j next, turn j pool reg = Some next.
Proof.
  intros (Hin & Hcall & Hlock) Hi Hret.
  destruct owner as [j|].
  - destruct Hlock as [_ [tj Hj]]. exists j.
    assert (Hheld : in_lock tj = true) by (apply (Hin j tj Hj); reflexivity).
    destruct (Hcall j tj Hj Hheld) as [o Ho].
    unfold turn. rewrite Hj. destruct tj as [c st]. simpl in Ho. subst c.
    destruct st as [| | r | r]; try discriminate; unfold task_step; simpl.
    + destruct o; simpl; eauto.
    + eauto.
  - exists i. unfold turn. rewrite Hi.
    assert (Hout : in_lock t = false).
    { destruct (in_lock t) eqn:E; [|reflexivity].
      apply (Hin i t Hi) in E. discriminate. }
    destruct t as [c st].
    destruct st as [| | r | r]; try discriminate.
    destruct c as [o | user now]; unfold task_step, bind, acquire; simpl.
    + rewrite Hlock. eauto.
    + eauto.
Qed.

Lemma unlocked_free reg : _room_lock reg = false -> unlocked reg = reg.
Proof. destruct reg as [s l g]. simpl. intros ->. reflexivity. Qed.

(** C9 (amended): tasks calling [register], [unregister] and
    [record_greeting] run on one event loop, which may switch tasks
    wherever a call awaits.  A call that nothing interrupts is the method:
    [register] and [unregister] take the lock, write the session map and
    release the lock; [record_greeting] writes the greeting ledger and
    takes no lock.  Whatever the schedule, the lock is taken only when
    free and released by the task that took it, every write of the session
    map is made by the task holding it, at most one task is between taking
    and releasing it, and the lock is held exactly when there is one.  The
    two maps are those left by the calls made one after the other in the
    order of their writes; each call writes once; and as long as a task has
    not returned, some task can run. *)
Theorem mutating_calls_are_serialized
    (calls : list call) (schedule : list nat) (reg0 reg : SessionRegistry)
    (pool : list task) (trace : list (nat * effect)) :
  _room_lock reg0 = false ->
  run_schedule schedule (spawn calls) reg0 = Some (pool, reg, trace) ->
  (forall o, exists r reg1 room,
     run_call (SessionCall o) reg0
     = Some (r, reg1, [Acquire; WriteSessions room; Release]) /\
     run_schedule (alone (SessionCall o)) (spawn [SessionCall o]) reg0
     = Some ([ {| task_call := SessionCall o; task_stage := Returned r |} ],
             reg1,
             pair 0%nat <$> [Acquire; WriteSessions room; Release])) /\
  (forall user now, exists reg1,
     run_call (GreetingCall user now) reg0
     = Some (Greeted, reg1, [WriteGreetingTimes user]) /\
     run_schedule (alone (GreetingCall user now))
       (spawn [GreetingCall user now]) reg0
     = Some ([ {| task_call := GreetingCall user now;
                  task_stage := Returned Greeted |} ],
             reg1, [(0%nat, WriteGreetingTimes user)])) /\
  lock_protocol None trace = true /\
  (forall i j ti tj,
     pool !! i = Some ti -> pool !! j = Some tj ->
     in_lock ti = true -> in_lock tj = true -> i = j) /\
  (_room_lock reg = true <->
   exists i t, pool !! i = Some t /\ in_lock t = true) /\
  (exists serial,
     run_calls (committed calls trace) reg0 = Some serial /\
     _sessions serial = _sessions reg /\
     _greeting_times serial = _greeting_times reg /\
     _room_lock serial = false) /\
  committed calls trace ++ outstanding pool ≡ₚ calls /\
  (forall i t, pool !! i = Some t -> returned t = false ->
   exists j next, turn j pool reg = Some next).
Proof.
  intros Hfree Hrun.
  split.
  { intros [room uid name sh ah meta now | room].
    - eexists _, _, room. unfold run_call, bind.
      rewrite register_runs by exact Hfree. cbv zeta.
      split; [reflexivity|].
      unfold run_schedule, turn, task_step, bind, acquire. simpl.
      rewrite Hfree. reflexivity.
    - eexists _, _, room. unfold run_call, bind.
      rewrite unregister_runs by exact Hfree.
      split; [reflexivity|].
      unfold run_schedule, turn, task_step, bind, acquire. simpl.
      rewrite Hfree. reflexivity. }
  split.
  { intros user now. eexists. split; reflexivity. }
  destruct (run_schedule_serial schedule None (spawn calls) reg0 pool reg trace
              (owned_spawn calls reg0 Hfree) Hrun)
    as ((owner & Hin & Hcall & Hlock) & Hproto & Hcalls & Hserial & Hout).
  rewrite spawn_calls in Hserial, Hout. rewrite spawn_outstanding in Hout.
  rewrite (unlocked_free reg0 Hfree) in Hserial.
  split; [exact Hproto|].
  split.
  { intros i j ti tj Hi Hj Hti Htj.
    apply (Hin i ti Hi) in Hti. apply (Hin j tj Hj) in Htj. congruence. }
  split.
  { split.
    - intros Hheld. destruct owner as [j|]; [|congruence].
      destruct Hlock as [_ [tj Hj]]. exists j, tj. split; [exact Hj|].
      apply (Hin j tj Hj). reflexivity.
    - intros (i & t & Hi & Ht). apply (Hin i t Hi) in Ht. subst owner.
      apply Hlock. }
  split; [exists (unlocked reg); auto|].
  split; [exact Hout|].
  intros i t Hi Hret.
  apply (owned_progress owner pool reg i t); [|exact Hi | exact Hret].
  split; [exact Hin|]. split; [exact Hcall | exact Hlock].
Qed.

(** [register] takes the lock, the greeting is recorded before it writes,
    and [unregister] runs once the lock is free again. *)
Lemma mutating_calls_are_serialized_witness :
  run_schedule [0; 1; 0; 0; 2; 2; 2]%nat (spawn sample_calls) new_registry
  = Some ([ {| task_call := SessionCall (Register "A" "u1" "Ann" None None None 0);
               task_stage := Returned (Registered sample_session) |};
            {| task_call := GreetingCall "u1" 5;
               task_stage := Returned Greeted |};
            {| task_call := SessionCall (Unregister "A");
               task_stage := Returned (Unregistered (Some sample_session)) |} ],
          {| _sessions := ∅; _room_lock := false;
             _greeting_times := {[ "u1" := 5 ]} |},
          [ (0%nat, Acquire); (1%nat, WriteGreetingTimes "u1");
            (0%nat, WriteSessions "A"); (0%nat, Release);
            (2%nat, Acquire); (2%nat, WriteSessions "A");
            (2%nat, Release) ]) /\
  run_schedule [0; 2]%nat (spawn sample_calls) new_registry = None /\
  run_calls
    [ GreetingCall "u1" 5;
      SessionCall (Register "A" "u1" "Ann" None None None 0);
      SessionCall (Unregister "A") ] new_registry
  = Some {| _sessions := ∅; _room_lock := false;
            _greeting_times := {[ "u1" := 5 ]} |}.
Proof.
  assert (Hrun :
    run_schedule [0; 1; 0; 0; 2; 2; 2]%nat (spawn sample_calls) new_registry
    = Some ([ {| task_call := SessionCall (Register "A" "u1" "Ann" None None None 0);
                 task_stage := Returned (Registered sample_session) |};
              {| task_call := GreetingCall "u1" 5;
                 task_stage := Returned Greeted |};
              {| task_call := SessionCall (Unregister "A");
                 task_stage := Returned (Unregistered (Some sample_session)) |} ],
            {| _sessions := ∅; _room_lock := false;
               _greeting_times := {[ "u1" := 5 ]} |},
            [ (0%nat, Acquire); (1%nat, WriteGreetingTimes "u1");
              (0%nat, WriteSessions "A"); (0%nat, Release);
              (2%nat, Acquire); (2%nat, WriteSessions "A");
              (2%nat, Release) ])).
  { vm_compute. reflexivity. }
  split; [exact Hrun|]. split; [vm_compute; reflexivity|].
  destruct (mutating_calls_are_serialized sample_calls
              [0; 1; 0; 0; 2; 2; 2]%nat new_registry _ _ _ eq_refl Hrun)
    as (_ & _ & _ & _ & _ & (serial & Hserial & Hs & Hg & Hl) & _).
  change (committed sample_calls _)
    with [ GreetingCall "u1" 5;
           SessionCall (Register "A" "u1" "Ann" None None None 0);
           SessionCall (Unregister "A") ] in Hserial.
  rewrite Hserial. f_equal.
  destruct serial as [s l g]. simpl in *. congruence.
Defined.

(** C9 as stated fails: the write of [record_greeting] happens with no
    lock held. *)
Lemma record_greeting_takes_no_lock :
  effects_of (record_greeting "u1" 0) new_registry = [WriteGreetingTimes "u1"] /\
  writes_locked false (effects_of (record_greeting "u1" 0) new_registry) = false.
Proof. split; reflexivity. Qed.

End RegistryFacts.

(* ===================================================================== *)
(** * More on the voice-activity detector: segments, silence, amplitude *)
(* ===================================================================== *)

Section VadMore.
Import Py Vad.

(** ** Segments in the channel *)

Lemma segmented_stream vad : segmented (stream vad).
Proof. exists []. split; [constructor | reflexivity]. Qed.

Lemma segmented_emit_end now self :
  consistent self -> segmented self -> _speech_started self = true ->
  segmented (_emit_end now self).
Proof.
  intros (Hsd & _ & Hvoiced & _) (pairs & Hpairs & Hopen) Hs.
  rewrite Hs in Hopen. destruct Hopen as (s & Hev & Htype & Hix & Hmore).
  unfold _emit_end. rewrite Hs. simpl.
  exists (pairs ++ [(s, {| type := END_OF_SPEECH;
                           samples_index := _speech_start_index self;
                           timestamp := now;
                           speech_duration := _speech_duration self;
                           silence_duration := _silence_accumulated self;
                           frames := _speech_frames self |})]).
  simpl. split.
  - apply Forall_app. split; [exact Hpairs|]. constructor; [|constructor].
    unfold closed_segment. simpl. auto 10.
  - unfold segment_events in *. rewrite flat_map_app. simpl.
    rewrite Hev, <- app_assoc. reflexivity.
Qed.

Lemma segmented_step now self c self' :
  consistent self -> segmented self ->
  handle_chunk now self c = Some self' -> segmented self'.
Proof.
  intros Hc Hseg H. destruct c as [frame|]; simpl in H.
  - destruct (voiced_or_silent self frame) as [Hv|Hv];
      destruct (_speech_started self) eqn:Hs.
    + rewrite (process_voiced_speaking _ _ _ Hv Hs) in H. injection H as <-.
      destruct Hseg as (pairs & Hpairs & Hopen). rewrite Hs in Hopen.
      destruct Hopen as (s & Hev & Htype & Hix & more & Hmore).
      exists pairs. simpl. rewrite Hs. split; [exact Hpairs|].
      exists s. repeat split; auto.
      exists (more ++ [frame]). rewrite Hmore, <- app_assoc. reflexivity.
    + destruct Hseg as (pairs & Hpairs & Hopen). rewrite Hs in Hopen.
      destruct (PrimFloat.leb (_min_speech_duration self)
                  (PrimFloat.add (_pending_duration self) (duration_of frame)))
        eqn:Hd.
      * rewrite (process_voiced_start _ _ _ Hv Hs Hd) in H. injection H as <-.
        exists pairs. simpl. split; [exact Hpairs|].
        eexists. split; [rewrite Hopen; reflexivity|]. simpl.
        repeat split. exists []. rewrite app_nil_r. reflexivity.
      * rewrite (process_voiced_candidate _ _ _ Hv Hs Hd) in H.
        injection H as <-. exists pairs. simpl. rewrite Hs. auto.
    + rewrite (process_silent_speaking _ _ _ Hv Hs) in H. injection H as <-.
      cbv zeta.
      set (s1 := advance_samples _ _).
      assert (Hc1 : consistent s1) by exact Hc.
      assert (Hseg1 : segmented s1).
      { destruct Hseg as (pairs & Hpairs & Hopen). exists pairs.
        split; [exact Hpairs | exact Hopen]. }
      destruct (PrimFloat.leb _ _); [|exact Hseg1].
      apply segmented_emit_end; [exact Hc1 | exact Hseg1 | exact Hs].
    + rewrite (process_silent_not_speaking _ _ _ Hv Hs) in H.
      injection H as <-.
      destruct Hseg as (pairs & Hpairs & Hopen). exists pairs.
      split; [exact Hpairs | exact Hopen].
  - injection H as <-. destruct (_speech_started self) eqn:Hs; [|exact Hseg].
    apply segmented_emit_end; assumption.
Qed.

Lemma segmented_run (input : list (float * chunk)) :
  forall self self', consistent self -> segmented self ->
  main_loop self input = Some self' -> segmented self'.
Proof.
  induction input as [|[now c] rest IH]; intros self self' Hc Hseg H;
    simpl in H.
  - congruence.
  - destruct (handle_chunk now self c) as [self1|] eqn:E; [|discriminate].
    eapply IH; [| |exact H].
    + eapply consistent_step; eassumption.
    + eapply segmented_step; eassumption.
Qed.

Lemma segment_types thr (pairs : list (VADEvent * VADEvent)) :
  Forall (fun p => closed_segment thr (fst p) (snd p)) pairs ->
  map type (segment_events pairs) =
  concat (repeat [START_OF_SPEECH; END_OF_SPEECH] (length pairs)).
Proof.
  induction 1 as [|[s e] rest (Hs & He & _) _ IH]; [reflexivity|].
  simpl in *. rewrite Hs, He, IH. reflexivity.
Qed.

Lemma segmented_types self :
  segmented self ->
  exists n, map type (_event_ch self) = alternation n (_speech_started self).
Proof.
  intros (pairs & Hpairs & Hopen). exists (length pairs). unfold alternation.
  destruct (_speech_started self).
  - destruct Hopen as (s & -> & Htype & _).
    rewrite map_app, (segment_types _ _ Hpairs). simpl. rewrite Htype.
    reflexivity.
  - rewrite Hopen, (segment_types _ _ Hpairs), app_nil_r. reflexivity.
Qed.

(** Closing the input is one more flush. *)
Lemma main_task_is_final_flush self input t_close :
  _main_task self input t_close =
  main_loop self (input ++ [(t_close, FlushSentinel)]).
Proof.
  unfold _main_task.
  destruct (main_loop_total input self) as [s Hs].
  rewrite (main_loop_app _ _ _ _ Hs), Hs. reflexivity.
Qed.

(** X1: whatever the input, the events a fresh stream has sent alternate
    Start, End, Start, End, ...: an End-of-Speech never comes first and
    never follows another End, and the last event is a Start-of-Speech
    exactly when the stream is still speaking. *)
Theorem events_alternate
    (vad : SimpleEnergyVAD) (input : list (float * chunk)) :
  exists self n,
    main_loop (stream vad) input = Some self /\
    map type (_event_ch self) = alternation n (_speech_started self).
Proof.
  destruct (main_loop_total input (stream vad)) as [self Hrun].
  destruct (segmented_types self) as [n Hn].
  { eapply segmented_run; [apply consistent_stream | apply segmented_stream |
                           exact Hrun]. }
  eauto.
Qed.

Lemma end_follows_its_start thr (pairs : list (VADEvent * VADEvent)) :
  Forall (fun p => closed_segment thr (fst p) (snd p)) pairs ->
  forall tail before e after,
  Forall (fun x => type x = START_OF_SPEECH) tail ->
  segment_events pairs ++ tail = before ++ e :: after ->
  type e = END_OF_SPEECH ->
  exists before' s, before = before' ++ [s] /\ closed_segment thr s e.
Proof.
  induction 1 as [|[s0 e0] rest Hp _ IH]; intros tail before e after Htail Heq He.
  - simpl in Heq. subst tail. apply Forall_app in Htail as [_ Htail].
    inversion Htail; subst. congruence.
  - simpl in Heq, Hp. destruct before as [|x [|y before]]; simpl in Heq.
    + injection Heq as <- _. destruct Hp as (Hs0 & _). congruence.
    + injection Heq as <- <- _. exists [], s0. split; [reflexivity | exact Hp].
    + injection Heq as <- <- Heq.
      destruct (IH tail before e after Htail Heq He) as (b' & s & -> & Hc).
      exists (s0 :: e0 :: b'), s. split; [reflexivity | exact Hc].
Qed.

(** X2: every End-of-Speech a fresh stream has sent comes right after the
    Start-of-Speech of its segment: it carries the same [samples_index],
    its frames begin with the frames of the Start, all its frames are
    voiced, and its [speech_duration] is the sum of their durations,
    whether the segment was closed by silence, by a flush or by the end
    of the input. *)
Theorem end_of_speech_answers_its_start
    (vad : SimpleEnergyVAD) (input : list (float * chunk)) (self : VADStream)
    (before : list VADEvent) (e : VADEvent) (after : list VADEvent) :
  main_loop (stream vad) input = Some self ->
  _event_ch self = before ++ e :: after ->
  type e = END_OF_SPEECH ->
  exists before' s,
    before = before' ++ [s] /\ closed_segment (vad_threshold vad) s e.
Proof.
  intros Hrun Hev He.
  assert (Hseg : segmented self).
  { eapply segmented_run; [apply consistent_stream | apply segmented_stream |
                           exact Hrun]. }
  destruct (main_loop_config _ _ _ Hrun) as (Ht & _). simpl in Ht.
  destruct Hseg as (pairs & Hpairs & Hopen). rewrite Ht in Hpairs.
  destruct (_speech_started self).
  - destruct Hopen as (s & Hch & Htype & _).
    apply (end_follows_its_start _ pairs Hpairs [s] before e after);
      [repeat constructor; exact Htype | congruence | exact He].
  - apply (end_follows_its_start _ pairs Hpairs [] before e after);
      [constructor | rewrite app_nil_r; congruence | exact He].
Qed.

(** X3: when the input closes, every segment has been closed: the task
    leaves the stream not speaking and the channel holds whole Start/End
    pairs only. *)
Theorem close_ends_every_segment
    (vad : SimpleEnergyVAD) (input : list (float * chunk)) (t_close : float) :
  exists self n,
    _main_task (stream vad) input t_close = Some self /\
    _speech_started self = false /\
    map type (_event_ch self) = alternation n false.
Proof.
  rewrite main_task_is_final_flush.
  destruct (main_loop_total (input ++ [(t_close, FlushSentinel)]) (stream vad))
    as [self Hrun].
  assert (Hstop : _speech_started self = false).
  { destruct (main_loop_total input (stream vad)) as [s Hs].
    rewrite (main_loop_app _ _ _ _ Hs) in Hrun. simpl in Hrun.
    injection Hrun as <-. destruct (_speech_started s) eqn:E; [|exact E].
    unfold _emit_end. rewrite E. reflexivity. }
  assert (Hseg : segmented self).
  { eapply segmented_run; [apply consistent_stream | apply segmented_stream |
                           exact Hrun]. }
  destruct (segmented_types _ Hseg) as [n Hn]. rewrite Hstop in Hn.
  exists self, n. auto.
Qed.


(** ** Quiet input *)

Lemma quiet_run (input : list (float * chunk)) :
  forall self, _speech_started self = false ->
  Forall (fun tc => quiet_chunk (_threshold self) (snd tc)) input ->
  exists self', main_loop self input = Some self' /\
    _speech_started self' = false /\
    _event_ch self' = _event_ch self /\
    _pending_frames self' = _pending_frames self /\
    _pending_duration self' = _pending_duration self.
Proof.
  induction input as [|[now c] rest IH]; intros self Hs Hq; simpl.
  - eauto 10.
  - inversion Hq as [|? ? Hc Hrest]; subst. destruct c as [frame|]; simpl in *.
    + rewrite (process_silent_not_speaking now self frame Hc Hs).
      apply (IH (advance_samples (samples_per_channel frame) self) Hs Hrest).
    + rewrite Hs. apply (IH self Hs Hrest).
Qed.

(** X4: input made of sub-threshold frames and flushes only never makes a
    fresh stream send an event, neither while it runs nor when the input
    closes. *)
Theorem silence_sends_nothing
    (vad : SimpleEnergyVAD) (input : list (float * chunk)) (t_close : float) :
  Forall (fun tc => quiet_chunk (vad_threshold vad) (snd tc)) input ->
  exists self,
    main_loop (stream vad) input = Some self /\
    _main_task (stream vad) input t_close = Some self /\
    _event_ch self = [] /\
    _speech_started self = false /\
    _samples_index self = total_samples input.
Proof.
  intros Hq.
  destruct (quiet_run input (stream vad) eq_refl Hq)
    as (self & Hrun & Hs & Hev & _).
  exists self. unfold _main_task. rewrite Hrun, Hs.
  rewrite (main_loop_samples _ _ _ Hrun). auto.
Qed.

(** ** Amplitude *)

Lemma int16_le_range lo hi : -32768 <= int16_le lo hi <= 32767.
Proof.
  unfold int16_le.
  pose proof (Byte.to_N_bounded lo). pose proof (Byte.to_N_bounded hi).
  destruct (Z.ltb_spec (Z.of_N (Byte.to_N lo) + 256 * Z.of_N (Byte.to_N hi))
              32768); lia.
Qed.

Lemma cast_h_range_upto (n : nat) :
  forall raw view, (length raw <= n)%nat -> cast_h raw = Some view ->
  Forall (fun x => -32768 <= x <= 32767) view.
Proof.
  induction n as [|n IH]; intros raw view Hlen H.
  - destruct raw; [|simpl in Hlen; lia]. injection H as <-. constructor.
  - destruct raw as [|lo [|hi rest]]; simpl in H.
    + injection H as <-. constructor.
    + discriminate.
    + destruct (cast_h rest) as [tl|] eqn:E; [|discriminate].
      injection H as <-. constructor; [apply int16_le_range|].
      apply (IH rest); [simpl in Hlen; lia | exact E].
Qed.

Lemma cast_h_range (raw : list byte) (view : list Z) :
  cast_h raw = Some view -> Forall (fun x => -32768 <= x <= 32767) view.
Proof. apply (cast_h_range_upto (length raw)). lia. Qed.

Lemma fold_max_range (xs : list Z) :
  forall x, 0 <= x <= 32768 -> Forall (fun y => 0 <= y <= 32768) xs ->
  0 <= fold_left Z.max xs x <= 32768.
Proof.
  induction xs as [|y ys IH]; intros x Hx Hall; simpl; [exact Hx|].
  inversion Hall; subst. apply IH; [lia | assumption].
Qed.

Lemma amplitude_range (frame : AudioFrame) :
  0 <= amplitude_of frame <= 32768.
Proof.
  unfold amplitude_of, _frame_amplitude.
  destruct (_ || _)%bool; [simpl; lia|].
  match goal with |- context [cast_h ?r] => destruct (cast_h r) as [view|] eqn:E end;
    [|simpl; lia].
  apply cast_h_range in E.
  destruct view as [|x view]; [simpl; lia|].
  inversion E as [|? ? Hx Hview]; subst. simpl.
  apply fold_max_range; [lia|].
  apply Forall_map. eapply Forall_impl; [exact Hview|]. simpl. intros; lia.
Qed.

Lemma fold_max_lower (xs : list Z) : forall x, x <= fold_left Z.max xs x.
Proof.
  induction xs as [|y ys IH]; intros x; simpl; [lia|].
  specialize (IH (Z.max x y)). lia.
Qed.

(** X5: the amplitude of a frame is the peak magnitude of its 16-bit
    samples: never negative and never above 32768, and it is 32768, one
    more than the largest positive sample, as soon as the first sample is
    the most negative one. *)
Theorem amplitude_is_bounded (frame : AudioFrame) :
  0 <= amplitude_of frame <= 32768 /\
  (forall rest, data frame = x00 :: x80 :: rest -> amplitude_of frame = 32768).
Proof.
  split; [apply amplitude_range|].
  intros rest Hdata.
  pose proof (amplitude_range frame) as Hrange.
  enough (32768 <= amplitude_of frame) by lia.
  clear Hrange. pose proof (frame_amplitude_of frame) as H.
  revert H. generalize (amplitude_of frame). intros a H.
  unfold _frame_amplitude in H. rewrite Hdata in H.
  replace (match x00 :: x80 :: rest with [] => true | _ :: _ => false end
           || (Z.of_nat (length (x00 :: x80 :: rest)) <? 2))%bool
    with false in H
    by (symmetry; simpl orb; apply Z.ltb_ge; simpl length; lia).
  assert (Hhead : exists r',
            (if negb (Z.of_nat (length (x00 :: x80 :: rest)) mod 2 =? 0)
             then firstn (length (x00 :: x80 :: rest) - 1) (x00 :: x80 :: rest)
             else x00 :: x80 :: rest) = x00 :: x80 :: r').
  { destruct (Z.eqb_spec (Z.of_nat (length (x00 :: x80 :: rest)) mod 2) 0)
      as [E|E]; simpl negb; cbv iota; [eauto|].
    destruct rest as [|b rest']; [exfalso; apply E; reflexivity|].
    simpl length.
    replace (S (S (S (length rest'))) - 1)%nat with (S (S (length rest'))) by lia.
    simpl. eauto. }
  destruct Hhead as [r' Hr]. rewrite Hr in H. simpl in H.
  destruct (cast_h r') as [view|]; [|discriminate].
  simpl in H. injection H as <-.
  apply (fold_max_lower (map Z.abs view) 32768).
Qed.

(** X6: a threshold above 32768 is out of reach: no input makes the
    stream send an event. *)
Theorem unreachable_threshold_sends_nothing
    (vad : SimpleEnergyVAD) (input : list (float * chunk)) :
  32768 < vad_threshold vad ->
  exists self,
    main_loop (stream vad) input = Some self /\
    _event_ch self = [] /\ _speech_started self = false /\
    _pending_frames self = [].
Proof.
  intros Hthr.
  destruct (quiet_run input (stream vad) eq_refl)
    as (self & Hrun & Hs & Hev & Hp & _).
  - apply Forall_forall. intros [t c] _. destruct c as [frame|]; simpl; [|exact I].
    pose proof (amplitude_range frame). lia.
  - exists self. auto.
Qed.


(** X7: the sample counter of a stream counts every frame it was given,
    voiced or not, inside a segment or not; flushes and the end of a
    segment leave it alone, and the three tunables never change. *)
Theorem sample_counter_counts_every_frame
    (vad : SimpleEnergyVAD) (input : list (float * chunk)) (t_close : float) :
  exists self closed,
    main_loop (stream vad) input = Some self /\
    _main_task (stream vad) input t_close = Some closed /\
    _samples_index self = total_samples input /\
    _samples_index closed = total_samples input /\
    _threshold closed = vad_threshold vad /\
    _min_speech_duration closed = vad_min_speech_duration vad /\
    _silence_timeout closed = vad_silence_timeout vad.
Proof.
  destruct (main_loop_total input (stream vad)) as [self Hrun].
  destruct (main_loop_total (input ++ [(t_close, FlushSentinel)]) (stream vad))
    as [closed Hclosed].
  exists self, closed. rewrite main_task_is_final_flush.
  split; [exact Hrun|]. split; [exact Hclosed|].
  rewrite (main_loop_samples _ _ _ Hrun), (main_loop_samples _ _ _ Hclosed).
  destruct (main_loop_config _ _ _ Hclosed) as (H1 & H2 & H3).
  assert (Htot : total_samples (input ++ [(t_close, FlushSentinel)])
                 = total_samples input).
  { unfold total_samples. rewrite fold_right_app. simpl. reflexivity. }
  rewrite Htot. simpl in *. auto 10.
Qed.

(** X8: candidates outlive a dip. For a stream that is not speaking,
    sub-threshold frames leave the candidate buffer as it is, so a voiced
    frame that completes [min_speech_duration] after any such gap opens a
    segment made of the earlier candidates and itself, indexed at the
    sample count reached after the gap. *)
Theorem candidates_survive_a_dip
    (self : VADStream) (gap : list (float * AudioFrame))
    (now : float) (frame : AudioFrame) :
  _speech_started self = false ->
  Forall (fun tf => silent self (snd tf)) gap ->
  voiced self frame ->
  PrimFloat.leb (_min_speech_duration self)
    (PrimFloat.add (_pending_duration self) (duration_of frame)) = true ->
  exists self',
    main_loop self (as_input gap ++ [(now, Frame frame)]) = Some self' /\
    _speech_started self' = true /\
    _speech_frames self' = _pending_frames self ++ [frame] /\
    _event_ch self' =
      _event_ch self ++
      [ {| type := START_OF_SPEECH;
           samples_index := _samples_index self + total_samples (as_input gap);
           timestamp := now;
           speech_duration := 0%float;
           silence_duration := 0%float;
           frames := _pending_frames self ++ [frame] |} ].
Proof.
  intros Hs Hgap Hv Hd.
  destruct (quiet_run (as_input gap) self Hs) as
    (s1 & Hrun & Hs1 & Hev & Hpf & Hpd).
  { unfold as_input. apply Forall_map. exact Hgap. }
  destruct (main_loop_config _ _ _ Hrun) as (Ht & Hm & _).
  rewrite (main_loop_app _ _ _ _ Hrun). simpl.
  rewrite (process_voiced_start now s1 frame).
  - eexists. split; [reflexivity|]. simpl.
    rewrite Hev, Hpf, (main_loop_samples _ _ _ Hrun). auto.
  - unfold voiced in *. rewrite Ht. exact Hv.
  - exact Hs1.
  - rewrite Hm, Hpd. exact Hd.
Qed.

(** X9: silence has to be unbroken to close a segment. In a speaking
    stream a voiced frame sets the trailing silence back to zero: two runs
    of sub-threshold frames that each stay below [silence_timeout], with a
    voiced frame between them, send no event, however long they are
    together. *)
Theorem broken_silence_keeps_segment_open
    (self : VADStream) (first : list (float * AudioFrame))
    (now : float) (frame : AudioFrame) (second : list (float * AudioFrame)) :
  _speech_started self = true ->
  Forall (fun tf => silent self (snd tf)) (first ++ second) ->
  voiced self frame ->
  (forall j, (j < length first)%nat ->
     PrimFloat.leb (_silence_timeout self)
       (add_durations (_silence_accumulated self) (take (S j) (map snd first)))
     = false) ->
  (forall j, (j < length second)%nat ->
     PrimFloat.leb (_silence_timeout self)
       (sum_durations (take (S j) (map snd second))) = false) ->
  exists self',
    main_loop self (as_input first ++ (now, Frame frame) :: as_input second)
    = Some self' /\
    _event_ch self' = _event_ch self /\
    _speech_started self' = true /\
    _speech_frames self' = _speech_frames self ++ [frame] /\
    _silence_accumulated self' = sum_durations (map snd second).
Proof.
  intros Hs Hsil Hv H1 H2. apply Forall_app in Hsil as [Hfirst Hsecond].
  destruct (speaking_silent first self Hs Hfirst H1) as
    (s1 & Hrun1 & Hs1 & Hfr1 & _ & _ & _ & Hev1).
  destruct (main_loop_config _ _ _ Hrun1) as (Ht1 & _ & Hto1).
  rewrite (main_loop_app _ _ _ _ Hrun1). simpl.
  assert (Hv1 : voiced s1 frame) by (unfold voiced in *; rewrite Ht1; exact Hv).
  rewrite (process_voiced_speaking now s1 frame Hv1 Hs1).
  set (s2 := advance_samples _ _).
  destruct (speaking_silent second s2) as
    (s3 & Hrun3 & Hs3 & Hfr3 & _ & _ & Hacc3 & Hev3).
  - exact Hs1.
  - eapply Forall_impl; [exact Hsecond|]. intros tf Htf.
    unfold silent in *. simpl. rewrite Ht1. exact Htf.
  - intros j Hj. simpl. rewrite Hto1. apply (H2 j Hj).
  - exists s3. split; [exact Hrun3|]. rewrite Hev3, Hfr3, Hacc3. simpl.
    rewrite Hev1, Hfr1. auto.
Qed.

End VadMore.

(* ===================================================================== *)
(** * More on the transcription adapter: outcomes, clean text, addresses *)
(* ===================================================================== *)

Section StripFacts.
Import Py.

Lemma lstrip_split (l : list ascii) :
  exists pre, l = pre ++ lstrip l /\ Forall (fun c => is_space c = true) pre.
Proof.
  induction l as [|c rest (pre & Hpre & Hall)]; simpl.
  - exists []. split; [reflexivity | constructor].
  - destruct (is_space c) eqn:E.
    + exists (c :: pre). split; [simpl; congruence | constructor; assumption].
    + exists []. split; [reflexivity | constructor].
Qed.

Lemma lstrip_head (l : list ascii) :
  match lstrip l with
  | [] => True
  | c :: _ => is_space c = false
  end.
Proof.
  induction l as [|c rest IH]; simpl; [exact I|].
  destruct (is_space c) eqn:E; [exact IH | exact E].
Qed.

Lemma lstrip_fixed (l : list ascii) :
  match l with [] => True | c :: _ => is_space c = false end ->
  lstrip l = l.
Proof. destruct l as [|c rest]; simpl; [reflexivity|]. intros ->. reflexivity. Qed.

Lemma strip_chars_ends (l : list ascii) :
  match strip_chars l with [] => True | c :: _ => is_space c = false end /\
  match rev (strip_chars l) with [] => True | c :: _ => is_space c = false end.
Proof.
  unfold strip_chars. rewrite rev_involutive. split; [|apply lstrip_head].
  pose proof (lstrip_head l) as Ha.
  destruct (lstrip_split (rev (lstrip l))) as (pre & Hpre & _).
  apply (f_equal (@rev ascii)) in Hpre.
  rewrite rev_involutive, rev_app_distr in Hpre.
  destruct (rev (lstrip (rev (lstrip l)))) as [|x b']; [exact I|].
  rewrite Hpre in Ha. exact Ha.
Qed.

Lemma strip_chars_idempotent (l : list ascii) :
  strip_chars (strip_chars l) = strip_chars l.
Proof.
  destruct (strip_chars_ends l) as [Hfront Hback].
  unfold strip_chars at 1.
  rewrite (lstrip_fixed _ Hfront), (lstrip_fixed _ Hback).
  apply rev_involutive.
Qed.

Lemma strip_as_chars (s : string) :
  strip s = String.string_of_list_ascii
              (strip_chars (String.list_ascii_of_string s)).
Proof. reflexivity. Qed.

Lemma strip_idempotent (s : string) : strip (strip s) = strip s.
Proof.
  rewrite !strip_as_chars, String.list_ascii_of_string_of_list_ascii,
    strip_chars_idempotent. reflexivity.
Qed.

End StripFacts.

Section SttMore.
Import Py Stt.

Lemma matches_stripped (body : json) :
  Forall (fun c => strip c = c) (matches_in_order body).
Proof.
  induction body as [| b | n | s | items IH | entries IH] using json_nested_ind;
    try constructor.
  - simpl. destruct (str_truthy (strip s)); repeat constructor.
    apply strip_idempotent.
  - simpl. induction IH as [|x rest Hx _ IHrest]; simpl; [constructor|].
    apply Forall_app. auto.
  - rewrite matches_dict. apply Forall_app. split.
    + apply Forall_flat_map. apply Forall_forall. intros key _.
      unfold text_at. destruct (dict_get entries key) as [[]|]; try constructor.
      destruct (str_truthy (strip s)); repeat constructor.
      apply strip_idempotent.
    + apply Forall_flat_map. apply Forall_forall. intros key _.
      induction IH as [|[k v] rest Hv _ IHrest]; simpl; [constructor|].
      destruct (String.eqb k key); [|exact IHrest].
      destruct v; try constructor. exact Hv.
Qed.

Lemma extracted_is_clean (body : json) (t : string) :
  _extract_transcription body = Some t ->
  str_truthy t = true /\ strip t = t.
Proof.
  intros H. destruct (extract_is_first_match body) as [Hhead Hall].
  rewrite Hhead in H. pose proof (matches_stripped body) as Hstrip.
  destruct (matches_in_order body) as [|c cs]; [discriminate|].
  injection H as <-. inversion Hall; inversion Hstrip; subst. auto.
Qed.

(** X10: [_recognize_impl] returns an event exactly when the service
    answers with a 2xx status. Any other status raises a status error with
    the code, the request id header and the body text of the response; a
    timeout raises the timeout error and a transport failure the
    connection error. A returned event is a final transcript with at most
    one alternative, the audio duration and the request id. *)
Theorem recognize_outcomes
    (opts : DrascomSttOptions) (post : Request -> HttpOutcome)
    (wav_bytes : list byte) (audio_duration : float) (hint : option string)
    (conn_timeout : float) :
  let result :=
    _recognize_impl opts post wav_bytes audio_duration hint conn_timeout in
  match post (recognize_request opts wav_bytes hint conn_timeout) with
  | TimeoutException => result = inl APITimeoutError
  | RequestError => result = inl APIConnectionError
  | Responded response =>
      if (200 <=? status_code response) && (status_code response <=? 299)
      then exists event,
             result = inr event /\
             se_type event = FINAL_TRANSCRIPT /\
             se_request_id event =
               default ""%string (headers response !! "x-request-id"%string) /\
             recognition_usage event = audio_duration /\
             (length (alternatives event) <= 1)%nat
      else exists message,
             result = inl (APIStatusError message (status_code response)
                             (headers response !! "x-request-id"%string)
                             (text response))
  end.
Proof.
  intros result. subst result. unfold _recognize_impl.
  destruct (post _) as [response| |]; try reflexivity.
  unfold is_success.
  destruct ((200 <=? status_code response) && (status_code response <=? 299));
    simpl; [|eauto].
  destruct (match _extract_transcription _ with
            | Some t => str_truthy t | None => false end);
    eexists; (split; [reflexivity|]); simpl; auto.
Qed.

(** X11: when a 2xx response holds a transcript, the event carries it as
    its only alternative: the text is not empty and has no white space at
    either end, and the language is the one found in the body, else the
    configured one, else the hint, else empty. *)
Theorem transcript_becomes_the_alternative
    (opts : DrascomSttOptions) (post : Request -> HttpOutcome)
    (wav_bytes : list byte) (audio_duration : float) (hint : option string)
    (conn_timeout : float) (response : Response) (t : string) :
  post (recognize_request opts wav_bytes hint conn_timeout) = Responded response ->
  is_success response = true ->
  _extract_transcription (response_body response) = Some t ->
  _recognize_impl opts post wav_bytes audio_duration hint conn_timeout =
  inr {| se_type := FINAL_TRANSCRIPT;
         se_request_id :=
           default ""%string (headers response !! "x-request-id"%string);
         alternatives :=
           [ {| sd_text := t;
                sd_language :=
                  first_truthy [_extract_language (response_body response);
                                language opts; hint] |} ];
         recognition_usage := audio_duration |} /\
  t <> ""%string /\ strip t = t.
Proof.
  intros Hpost Hok Ht.
  destruct (extracted_is_clean _ _ Ht) as [Htruthy Hstrip].
  unfold _recognize_impl. rewrite Hpost, Hok, Ht. simpl. rewrite Htruthy.
  split; [reflexivity|]. split; [|exact Hstrip].
  intros ->. discriminate.
Qed.

Lemma first_candidate_found {A : Type} (f : A -> option string)
    (xs : list A) (c : string) :
  first_candidate f xs = Some c ->
  exists x, In x xs /\ f x = Some c /\ str_truthy c = true.
Proof.
  induction xs as [|x rest IH]; simpl; [discriminate|].
  destruct (f x) as [c'|] eqn:E.
  - destruct (str_truthy c') eqn:Ec.
    + intros [= <-]. exists x. auto.
    + intros Hrest. destruct (IH Hrest) as (y & Hy & Hfy). exists y. auto.
  - intros Hrest. destruct (IH Hrest) as (y & Hy & Hfy). exists y. auto.
Qed.

Lemma language_dict entries :
  _extract_language (JDict entries) =
  match first_candidate (text_at entries) language_keys with
  | Some text => Some text
  | None =>
      first_candidate
        (fun key =>
           with_entry key
             (fun value =>
                match value with
                | JList items => first_candidate _extract_language items
                | _ => None
                end) None entries) list_keys
  end.
Proof. reflexivity. Qed.

Lemma language_extracted_is_clean (body : json) :
  forall l,
  _extract_language body = Some l \/
  (exists items, body = JList items /\
     first_candidate _extract_language items = Some l) ->
  str_truthy l = true /\ strip l = l.
Proof.
  induction body as [| b | n | s | items IH | entries IH] using json_nested_ind;
    intros l [H|(items0 & Heq & H)]; try discriminate.
  - injection Heq as <-.
    apply first_candidate_found in H as (item & Hin & Hl & _).
    rewrite Forall_forall in IH. apply list_elem_of_In in Hin.
    apply (IH item Hin l). left. exact Hl.
  - rewrite language_dict in H.
    destruct (first_candidate (text_at entries) language_keys) as [d|] eqn:Hd.
    + injection H as <-.
      apply first_candidate_found in Hd as (key & _ & Hkey & Htruthy).
      split; [exact Htruthy|]. unfold text_at in Hkey.
      destruct (dict_get entries key) as [[]|]; try discriminate.
      destruct (str_truthy (strip s)); [|discriminate].
      injection Hkey as <-. apply strip_idempotent.
    + apply first_candidate_found in H as (key & _ & Hkey & _).
      clear Hd.
      induction IH as [|[k v] rest Hv _ IHrest]; simpl in Hkey; [discriminate|].
      destruct (String.eqb k key); [|exact (IHrest Hkey)].
      destruct v; try discriminate.
      apply (Hv l). right. eauto.
Qed.

(** X12: a detected language comes from a mapping only: a text body or a
    top-level sequence yields none, whatever it holds. A language found is
    never empty and has no white space at either end, and one under a
    direct key [language], [lang] or [detected_language] of the top-level
    mapping is preferred to any nested one. *)
Theorem language_comes_from_a_mapping (body : json) :
  ((forall entries, body <> JDict entries) -> _extract_language body = None) /\
  (forall l, _extract_language body = Some l -> l <> ""%string /\ strip l = l) /\
  (forall entries l,
     body = JDict entries ->
     first_candidate (text_at entries) language_keys = Some l ->
     _extract_language body = Some l).
Proof.
  split; [|split].
  - intros Hnot. destruct body; try reflexivity. exfalso. eapply Hnot; eauto.
  - intros l H.
    destruct (language_extracted_is_clean body l (or_introl H)) as [Ht Hs].
    split; [|exact Hs]. intros ->. discriminate.
  - intros entries l -> H. rewrite language_dict, H. reflexivity.
Qed.


Lemma lstrip_char_split (c : ascii) (l : list ascii) :
  exists pre, l = pre ++ lstrip_char c l /\ Forall (fun x => x = c) pre.
Proof.
  induction l as [|x rest (pre & Hpre & Hall)]; simpl.
  - exists []. split; [reflexivity | constructor].
  - destruct (Ascii.eqb_spec x c) as [->|Hne].
    + exists (c :: pre). split; [simpl; congruence | constructor; auto].
    + exists []. split; [reflexivity | constructor].
Qed.

Lemma lstrip_char_head (c : ascii) (l : list ascii) :
  match lstrip_char c l with
  | [] => True
  | x :: _ => x <> c
  end.
Proof.
  induction l as [|x rest IH]; simpl; [exact I|].
  destruct (Ascii.eqb_spec x c) as [->|Hne]; [exact IH | exact Hne].
Qed.

Lemma rstrip_char_spec (c : ascii) (s : string) :
  (exists tail,
     String.list_ascii_of_string s =
       String.list_ascii_of_string (rstrip_char c s) ++ tail /\
     Forall (fun x => x = c) tail) /\
  (forall pre, String.list_ascii_of_string (rstrip_char c s) <> pre ++ [c]).
Proof.
  unfold rstrip_char. rewrite String.list_ascii_of_string_of_list_ascii.
  set (l := String.list_ascii_of_string s). split.
  - destruct (lstrip_char_split c (rev l)) as (pre & Hpre & Hall).
    exists (rev pre). split.
    + rewrite <- rev_app_distr, <- Hpre, rev_involutive. reflexivity.
    + apply Forall_rev. exact Hall.
  - intros pre Heq. apply (f_equal (@rev ascii)) in Heq.
    rewrite rev_involutive, rev_app_distr in Heq. simpl in Heq.
    pose proof (lstrip_char_head c (rev l)) as Hhead.
    rewrite Heq in Hhead. congruence.
Qed.

(** X13: both adapters are built with the base address cut back at its
    trailing slashes: the stored address is the given one without a run of
    slashes at its end, it never ends in a slash, and the endpoint path is
    appended to it as it stands. The HTTP client is given the [Accept]
    header, and an [Authorization] header only for a non-empty key. *)
Theorem adapters_drop_trailing_slashes
    (base model_name voice_name format : string) (lang key : option string)
    (rate seconds : float) (wav_bytes : list byte) (hint : option string)
    (input_text : string) (conn_timeout : float) :
  let stt := DrascomSTT_init base model_name lang format key seconds in
  let tts := Tts.DrascomTTS_init base model_name voice_name rate format key seconds in
  let stored := base_url (_opts stt) in
  (exists slashes,
     String.list_ascii_of_string base =
       String.list_ascii_of_string stored ++ slashes /\
     Forall (fun x => x = "/"%char) slashes) /\
  (forall pre, String.list_ascii_of_string stored <> pre ++ ["/"%char]) /\
  Tts.base_url (Tts._opts (fst tts)) = stored /\
  url (recognize_request (_opts stt) wav_bytes hint conn_timeout)
    = (stored +:+ "/v1/audio/transcriptions")%string /\
  Tts.url (Tts.run_request (fst tts) input_text conn_timeout)
    = (stored +:+ "/v1/audio/speech")%string /\
  _client_headers stt !! "Accept"%string = Some "application/json"%string /\
  snd tts !! "Accept"%string = Some "audio/mpeg"%string /\
  _client_headers stt !! "Authorization"%string = snd tts !! "Authorization"%string /\
  _client_headers stt !! "Authorization"%string =
    match key with
    | Some k => if str_truthy k then Some ("Bearer " +:+ k)%string else None
    | None => None
    end.
Proof.
  intros stt tts stored. subst stt tts stored. simpl.
  destruct (rstrip_char_spec "/" base) as [Htail Hend].
  split; [exact Htail|]. split; [exact Hend|].
  repeat (split; [reflexivity|]).
  unfold _build_headers.
  destruct key as [k|]; [destruct (str_truthy k)|]; simpl.
  - repeat split; try reflexivity;
      rewrite lookup_insert_ne by discriminate; apply lookup_singleton_eq.
  - repeat split; try reflexivity; try apply lookup_singleton_eq.
  - repeat split; try reflexivity; try apply lookup_singleton_eq.
Qed.

End SttMore.

(* ===================================================================== *)
(** * More on the synthesis adapter: outcomes and option updates *)
(* ===================================================================== *)

Section TtsMore.
Import Py Tts.

(** X14: [_run] hands audio to the emitter exactly when the service
    answers with a 2xx status, and then as one chunk: it initialises the
    emitter with the request id, the adapter's sample rate and channel
    count and the content type of the response ([audio/mpeg] when the
    header is missing), pushes the whole body once and flushes. Any other
    status raises a status error with the code, the request id header and
    the body text; a timeout and a transport failure raise their own
    errors, and nothing reaches the emitter. *)
Theorem synthesis_outcomes
    (self : DrascomTTS) (post : Request -> HttpOutcome)
    (input_text : string) (conn_timeout : float) :
  let result := _run self post input_text conn_timeout in
  match post (run_request self input_text conn_timeout) with
  | TimeoutException => result = inl APITimeoutError
  | RequestError => result = inl APIConnectionError
  | Responded response =>
      if (200 <=? status_code response) && (status_code response <=? 299)
      then result =
           inr [ initialize
                   (default ""%string (headers response !! "x-request-id"%string))
                   (sample_rate self) (num_channels self)
                   (default "audio/mpeg"%string
                      (headers response !! "content-type"%string));
                 push (content response);
                 flush ]
      else exists message,
             result = inl (APIStatusError message (status_code response)
                             (headers response !! "x-request-id"%string)
                             (text response))
  end.
Proof.
  intros result. subst result. unfold _run.
  destruct (post _) as [response| |]; try reflexivity.
  unfold is_success.
  destruct ((200 <=? status_code response) && (status_code response <=? 299));
    simpl; eauto.
Qed.

Lemma given_default (arg : option string) :
  given arg = true -> str_truthy (default ""%string arg) = true.
Proof. destruct arg as [s|]; simpl; [auto | discriminate]. Qed.

(** X15: [update_options] never stores an empty model, voice or format
    and never touches the rest of the adapter: whatever the arguments,
    the base address, key, timeout, sample rate and channel count stay,
    each text option that was non-empty is still non-empty, and a speed
    that is supplied is always stored, zero included. *)
Theorem update_options_keeps_the_adapter_usable
    (self : DrascomTTS) (model_arg voice_arg : option string)
    (speed_arg : option float) (format_arg : option string) :
  let self' := update_options self model_arg voice_arg speed_arg format_arg in
  base_url (_opts self') = base_url (_opts self) /\
  api_key (_opts self') = api_key (_opts self) /\
  timeout (_opts self') = timeout (_opts self) /\
  sample_rate self' = sample_rate self /\
  num_channels self' = num_channels self /\
  (str_truthy (model (_opts self)) = true ->
   str_truthy (model (_opts self')) = true) /\
  (str_truthy (voice (_opts self)) = true ->
   str_truthy (voice (_opts self')) = true) /\
  (str_truthy (response_format (_opts self)) = true ->
   str_truthy (response_format (_opts self')) = true) /\
  speed (_opts self') = default (speed (_opts self)) speed_arg.
Proof.
  intros self'. subst self'. unfold update_options.
  pose proof (given_default model_arg) as Hm.
  pose proof (given_default voice_arg) as Hv.
  pose proof (given_default format_arg) as Hf.
  destruct (given model_arg), (given voice_arg), speed_arg,
    (given format_arg); simpl; auto 12.
Qed.

(** X16: applying the same update twice is applying it once, and an
    update that supplies the model, voice, speed and format an adapter
    had, when those texts are not empty, brings the adapter back to what
    it was, whatever was changed in between. *)
Theorem update_options_repeats_and_restores
    (self : DrascomTTS) (model_arg voice_arg : option string)
    (speed_arg : option float) (format_arg : option string) :
  let self' := update_options self model_arg voice_arg speed_arg format_arg in
  update_options self' model_arg voice_arg speed_arg format_arg = self' /\
  (model (_opts self) <> ""%string ->
   voice (_opts self) <> ""%string ->
   response_format (_opts self) <> ""%string ->
   update_options self'
     (Some (model (_opts self))) (Some (voice (_opts self)))
     (Some (speed (_opts self))) (Some (response_format (_opts self)))
   = self).
Proof.
  intros self'. subst self'.
  destruct self as [[b m v s f k t] sr nc]. split.
  - destruct model_arg as [[|? ?]|], voice_arg as [[|? ?]|], speed_arg,
      format_arg as [[|? ?]|]; reflexivity.
  - simpl. intros Hm Hv Hf.
    destruct m as [|? ?]; [congruence|].
    destruct v as [|? ?]; [congruence|].
    destruct f as [|? ?]; [congruence|].
    destruct model_arg as [[|? ?]|], voice_arg as [[|? ?]|], speed_arg,
      format_arg as [[|? ?]|]; reflexivity.
Qed.

End TtsMore.

(* ===================================================================== *)
(** * More on the session registry: counts, round trips, greetings *)
(* ===================================================================== *)

Section RegistryMore.
Import Registry.

Lemma run_op_greetings o reg reg' e :
  run_op o reg = Some (reg', e) ->
  _greeting_times reg' = _greeting_times reg /\ _room_lock reg = false.
Proof.
  destruct o as [room uid name sh ah meta now | room]; simpl;
    destruct (_room_lock reg) eqn:Hlock.
  - unfold register, with_room_lock, bind, acquire. rewrite Hlock. discriminate.
  - rewrite (register_runs _ _ _ _ _ _ _ _ Hlock). cbv zeta.
    intros [= <- _]. auto.
  - unfold unregister, with_room_lock, bind, acquire. rewrite Hlock. discriminate.
  - rewrite (unregister_runs _ _ Hlock). intros [= <- _]. auto.
Qed.

(** X17: the greeting ledger lives apart from the sessions. No sequence
    of [register] and [unregister] calls changes it, so whether a user
    is due a greeting is the same before and after; and
    [record_greeting] stamps its user only: the session map and the
    answer of [should_greet] for every other user stay as they were. *)
Theorem greetings_outlive_sessions
    (ops : list op) (reg reg' : SessionRegistry) :
  run_ops ops reg = Some reg' ->
  _greeting_times reg' = _greeting_times reg /\
  (forall user min_seconds now,
     should_greet reg' user min_seconds now
     = should_greet reg user min_seconds now) /\
  (forall user stamp,
     exists greeted e,
       record_greeting user stamp reg' = Some (tt, greeted, e) /\
       _sessions greeted = _sessions reg' /\
       _greeting_times greeted !! user = Some stamp /\
       forall other min_seconds now, other <> user ->
         should_greet greeted other min_seconds now
         = should_greet reg other min_seconds now).
Proof.
  revert reg. induction ops as [|o rest IH]; intros reg Hrun; simpl in Hrun.
  - injection Hrun as <-. split; [reflexivity|]. split; [reflexivity|].
    intros user stamp. eexists _, _. split; [reflexivity|]. simpl.
    split; [reflexivity|]. split; [apply lookup_insert_eq|].
    intros other min_seconds now Hne. unfold should_greet. simpl.
    rewrite lookup_insert_ne by congruence. reflexivity.
  - destruct (run_op o reg) as [[reg1 e1]|] eqn:Hop; [|discriminate].
    apply run_op_greetings in Hop as [Hg _].
    destruct (IH reg1 Hrun) as (H1 & H2 & H3).
    assert (Hsame : forall user min_seconds now,
              should_greet reg1 user min_seconds now
              = should_greet reg user min_seconds now).
    { intros. unfold should_greet. rewrite Hg. reflexivity. }
    split; [congruence|]. split.
    + intros. rewrite H2. apply Hsame.
    + intros user stamp.
      destruct (H3 user stamp) as (greeted & e & Ha & Hb & Hc & Hd).
      exists greeted, e. repeat split; auto.
      intros. rewrite Hd by assumption. apply Hsame.
Qed.

(** X18: [active_count] is the number of records [list_sessions] returns.
    With the lock free, [register] raises it by one for a room that had
    no record and leaves it alone for a room that had one; [unregister]
    lowers it by one for a room that had a record and leaves it alone
    otherwise. *)
Theorem active_count_follows_the_rooms
    (reg : SessionRegistry) (room user_id name : string) (sh ah : handle)
    (meta : option (list (string * string))) (now : datetime) :
  _room_lock reg = false ->
  active_count reg = length (list_sessions reg) /\
  (exists session reg' e,
     register room user_id name sh ah meta now reg = Some (session, reg', e) /\
     active_count reg' =
       match get reg room with
       | Some _ => active_count reg
       | None => S (active_count reg)
       end) /\
  (exists reg' e,
     unregister room reg = Some (get reg room, reg', e) /\
     active_count reg' =
       match get reg room with
       | Some _ => pred (active_count reg)
       | None => active_count reg
       end).
Proof.
  intros Hfree. split; [|split].
  - unfold active_count, list_sessions.
    rewrite length_fmap, length_map_to_list. reflexivity.
  - rewrite (register_runs _ _ _ _ _ _ _ _ Hfree). cbv zeta.
    eexists _, _, _. split; [reflexivity|].
    unfold active_count, get. simpl.
    rewrite map_size_insert.
    destruct (_sessions reg !! room); reflexivity.
  - rewrite (unregister_runs _ _ Hfree).
    eexists _, _. split; [reflexivity|].
    unfold active_count, get. simpl.
    rewrite map_size_delete.
    destruct (_sessions reg !! room); reflexivity.
Qed.

(** X19: [register] followed by [unregister] of the same room hands back
    the record just registered. The session map is then the earlier one
    without that room: the registry is exactly as before when the room
    had no record, and a record the room had before is gone, not
    restored. *)
Theorem register_then_unregister
    (reg : SessionRegistry) (room user_id name : string) (sh ah : handle)
    (meta : option (list (string * string))) (now : datetime) :
  _room_lock reg = false ->
  exists session reg1 e1 reg2 e2,
    register room user_id name sh ah meta now reg = Some (session, reg1, e1) /\
    unregister room reg1 = Some (Some session, reg2, e2) /\
    _sessions reg2 = delete room (_sessions reg) /\
    get reg2 room = None /\
    (forall other, other <> room -> get reg2 other = get reg other) /\
    (get reg room = None -> reg2 = reg).
Proof.
  intros Hfree.
  rewrite (register_runs _ _ _ _ _ _ _ _ Hfree). cbv zeta.
  eexists _, _, _, _, _. split; [reflexivity|].
  rewrite unregister_runs by reflexivity. simpl.
  rewrite lookup_insert_eq, delete_insert_eq.
  split; [reflexivity|]. split; [reflexivity|].
  unfold get. simpl. split; [apply lookup_delete_eq|].
  split.
  - intros other Hne. apply lookup_delete_ne. congruence.
  - intros Hnone. rewrite (delete_id _ _ Hnone).
    destruct reg as [s l g]. simpl in *. subst l. reflexivity.
Qed.

(** X20: a user with no recorded greeting is always due one, and a user
    greeted this instant is not due another under the default window of
    3600 seconds, whatever else the ledger holds. *)
Theorem greeting_is_debounced
    (reg : SessionRegistry) (user : string) (now : datetime) :
  (_greeting_times reg !! user = None ->
   forall min_seconds, should_greet reg user min_seconds now = true) /\
  exists greeted e,
    record_greeting user now reg = Some (tt, greeted, e) /\
    should_greet greeted user 3600 now = false.
Proof.
  split.
  - intros Hnone min_seconds. unfold should_greet, datetime in *.
    rewrite Hnone. reflexivity.
  - eexists _, _. split; [reflexivity|].
    unfold should_greet. simpl. rewrite lookup_insert_eq, Z.sub_diag.
    vm_compute. reflexivity.
Qed.

End RegistryMore.

(* ===================================================================== *)
(** * Properties of the assistant's language bookkeeping *)
(* ===================================================================== *)

Section AgentFacts.
Import Py Agent.

(** What [_normalize_language] does to one character after stripping. *)
Lemma lower_char_space (c : ascii) : is_space (lower_char c) = is_space c.
Proof. destruct c as [[] [] [] [] [] [] [] []]; reflexivity. Qed.

Lemma fold_char_idempotent (c : ascii) :
  let fold x := if Ascii.eqb (lower_char x) "_" then "-"%char else lower_char x in
  fold (fold c) = fold c /\ is_space (fold c) = is_space c.
Proof. destruct c as [[] [] [] [] [] [] [] []]; split; reflexivity. Qed.

Lemma lstrip_map (f : ascii -> ascii) (l : list ascii) :
  (forall c, is_space (f c) = is_space c) ->
  lstrip (map f l) = map f (lstrip l).
Proof.
  intros Hf. induction l as [|c rest IH]; simpl; [reflexivity|].
  rewrite Hf. destruct (is_space c); [exact IH | reflexivity].
Qed.

Lemma strip_chars_map (f : ascii -> ascii) (l : list ascii) :
  (forall c, is_space (f c) = is_space c) ->
  strip_chars (map f l) = map f (strip_chars l).
Proof.
  intros Hf. unfold strip_chars.
  rewrite (lstrip_map f l Hf), <- map_rev, (lstrip_map f _ Hf), map_rev.
  reflexivity.
Qed.

Lemma normalize_chars (l : string) :
  String.list_ascii_of_string (_normalize_language l) =
  map (fun x => if Ascii.eqb (lower_char x) "_" then "-"%char else lower_char x)
    (strip_chars (String.list_ascii_of_string l)).
Proof.
  unfold _normalize_language, replace_char, lower.
  rewrite strip_as_chars, !String.list_ascii_of_string_of_list_ascii, map_map.
  reflexivity.
Qed.

Lemma normalize_idempotent (l : string) :
  _normalize_language (_normalize_language l) = _normalize_language l.
Proof.
  rewrite <- (String.string_of_list_ascii_of_string
                (_normalize_language (_normalize_language l))).
  rewrite <- (String.string_of_list_ascii_of_string (_normalize_language l)) at 2.
  f_equal. rewrite normalize_chars, normalize_chars.
  rewrite strip_chars_map by (intros c; apply fold_char_idempotent).
  rewrite strip_chars_idempotent, map_map.
  apply map_ext. intros c. apply fold_char_idempotent.
Qed.

Lemma is_turkish_by_normal_form (l : string) :
  _is_turkish (Some l) =
  (String.eqb (_normalize_language l) "tr"
   || String.eqb (_normalize_language l) "tr-tr"
   || String.eqb (_normalize_language l) "turkish").
Proof. destruct l; reflexivity. Qed.

Lemma is_turkish_normalized (l : string) :
  _is_turkish (Some (_normalize_language l)) = _is_turkish (Some l).
Proof.
  rewrite !is_turkish_by_normal_form, normalize_idempotent. reflexivity.
Qed.

Lemma normalize_after_map (f : ascii -> ascii) (l : string) :
  (forall c, is_space (f c) = is_space c) ->
  (forall c, (if Ascii.eqb (lower_char (f c)) "_" then "-"%char
              else lower_char (f c))
             = (if Ascii.eqb (lower_char c) "_" then "-"%char
                else lower_char c)) ->
  _normalize_language
    (String.string_of_list_ascii (map f (String.list_ascii_of_string l)))
  = _normalize_language l.
Proof.
  intros Hspace Hfold.
  rewrite <- (String.string_of_list_ascii_of_string (_normalize_language l)).
  rewrite <- (String.string_of_list_ascii_of_string (_normalize_language _)) at 1.
  f_equal. rewrite !normalize_chars, String.list_ascii_of_string_of_list_ascii.
  rewrite (strip_chars_map f _ Hspace), map_map.
  apply map_ext. exact Hfold.
Qed.

Lemma lower_char_folds (c : ascii) :
  is_space (lower_char c) = is_space c /\
  (if Ascii.eqb (lower_char (lower_char c)) "_" then "-"%char
   else lower_char (lower_char c))
  = (if Ascii.eqb (lower_char c) "_" then "-"%char else lower_char c).
Proof. destruct c as [[] [] [] [] [] [] [] []]; split; reflexivity. Qed.

Lemma dash_char_folds (c : ascii) :
  let dash x := if Ascii.eqb x "_" then "-"%char else x in
  is_space (dash c) = is_space c /\
  (if Ascii.eqb (lower_char (dash c)) "_" then "-"%char
   else lower_char (dash c))
  = (if Ascii.eqb (lower_char c) "_" then "-"%char else lower_char c).
Proof. destruct c as [[] [] [] [] [] [] [] []]; split; reflexivity. Qed.

Lemma normalize_after_strip (l : string) :
  _normalize_language (strip l) = _normalize_language l.
Proof.
  unfold _normalize_language. rewrite strip_idempotent. reflexivity.
Qed.

(** X21: language codes are compared in a normal form, and normalising
    twice changes nothing. So [_is_turkish] gives the same answer for a
    code, for its lower-case form, for the form with [-] in place of
    [_], for the form without surrounding white space and for the
    normal form itself. *)
Theorem turkish_test_ignores_spelling (l : string) :
  _normalize_language (_normalize_language l) = _normalize_language l /\
  _is_turkish (Some (_normalize_language l)) = _is_turkish (Some l) /\
  _is_turkish (Some (lower l)) = _is_turkish (Some l) /\
  _is_turkish (Some (replace_char "_" "-" l)) = _is_turkish (Some l) /\
  _is_turkish (Some (strip l)) = _is_turkish (Some l).
Proof.
  split; [apply normalize_idempotent|].
  split; [apply is_turkish_normalized|].
  rewrite !is_turkish_by_normal_form, normalize_after_strip.
  unfold lower, replace_char.
  rewrite (normalize_after_map lower_char l)
    by (intros c; apply lower_char_folds).
  rewrite (normalize_after_map (fun x => if Ascii.eqb x "_" then "-"%char else x) l)
    by (intros c; apply dash_char_folds).
  auto.
Qed.

(** X22: [_coerce_language] knows two languages only. A missing or empty
    code gives nothing; every other code gives [tr] when [_is_turkish]
    accepts it and [en] otherwise, unknown languages included, and the
    result is judged Turkish exactly when the code was.
    [set_detected_language] stores that result as the last language,
    keeps the previous one when there is none, and never touches the
    active language. *)
Theorem coerce_language_is_two_valued
    (self : Assistant) (language : option string) :
  _coerce_language language =
    match language with
    | None => None
    | Some l =>
        if str_truthy l
        then Some (if _is_turkish (Some l) then "tr" else "en")%string
        else None
    end /\
  (forall l, language = Some l -> l <> ""%string ->
     _is_turkish (_coerce_language language) = _is_turkish language) /\
  _active_language (set_detected_language self language) = _active_language self /\
  _last_language (set_detected_language self language) =
    match _coerce_language language with
    | Some code => Some code
    | None => _last_language self
    end.
Proof.
  assert (Hco : _coerce_language language =
            match language with
            | None => None
            | Some l =>
                if str_truthy l
                then Some (if _is_turkish (Some l) then "tr" else "en")%string
                else None
            end).
  { destruct language as [l|]; [|reflexivity].
    unfold _coerce_language. destruct (str_truthy l); [|reflexivity].
    simpl negb. cbv iota zeta. rewrite is_turkish_normalized.
    destruct (_is_turkish (Some l)); [reflexivity|].
    destruct (_ || _); reflexivity. }
  split; [exact Hco|]. split; [|split].
  - intros l -> Hl. rewrite Hco.
    assert (Ht : str_truthy l = true) by (destruct l; [congruence | reflexivity]).
    rewrite Ht. destruct (_is_turkish (Some l)); reflexivity.
  - unfold set_detected_language.
    destruct (_coerce_language language) as [c|]; [|reflexivity].
    destruct (negb (str_truthy c)); reflexivity.
  - unfold set_detected_language. rewrite Hco.
    destruct language as [l|]; [|reflexivity].
    destruct (str_truthy l); [|reflexivity].
    destruct (_is_turkish (Some l)); reflexivity.
Qed.

End AgentFacts.

(* ===================================================================== *)
(** * The further theorems at sample inputs *)
(* ===================================================================== *)

Section VadMoreSamples.
Import Py Vad.

(** The End-of-Speech of [overshoot_input] and the Start before it. *)
Lemma end_of_speech_answers_its_start_witness :
  exists before' s,
    [ {| type := START_OF_SPEECH; samples_index := 0; timestamp := 1%float;
         speech_duration := 0%float; silence_duration := 0%float;
         frames := [voiced_half] |} ] = before' ++ [s] /\
    closed_segment 500 s
      {| type := END_OF_SPEECH; samples_index := 0; timestamp := 3%float;
         speech_duration := 0.5%float; silence_duration := 0.5%float;
         frames := [voiced_half] |}.
Proof.
  apply (end_of_speech_answers_its_start sample_vad overshoot_input
           (default (stream sample_vad)
              (main_loop (stream sample_vad) overshoot_input))
           _ _ []).
  - vm_compute. reflexivity.
  - vm_compute. reflexivity.
  - reflexivity.
Defined.

(** A quiet frame, a flush and an empty frame. *)
Lemma silence_sends_nothing_witness :
  exists self,
    main_loop (stream sample_vad)
      [(1%float, Frame quiet_quarter); (2%float, FlushSentinel);
       (3%float, Frame empty_frame)] = Some self /\
    _main_task (stream sample_vad)
      [(1%float, Frame quiet_quarter); (2%float, FlushSentinel);
       (3%float, Frame empty_frame)] 4%float = Some self /\
    _event_ch self = [] /\
    _speech_started self = false /\
    _samples_index self =
      total_samples [(1%float, Frame quiet_quarter); (2%float, FlushSentinel);
                     (3%float, Frame empty_frame)].
Proof.
  apply (silence_sends_nothing sample_vad).
  repeat constructor; vm_compute; reflexivity.
Defined.

(** [overshoot_input] against a threshold of 40000. *)
Lemma unreachable_threshold_sends_nothing_witness :
  exists self,
    main_loop
      (stream {| vad_threshold := 40000;
                 vad_min_speech_duration := 0.25%float;
                 vad_silence_timeout := 0.375%float |})
      overshoot_input = Some self /\
    _event_ch self = [] /\ _speech_started self = false /\
    _pending_frames self = [].
Proof.
  apply (unreachable_threshold_sends_nothing
           {| vad_threshold := 40000;
              vad_min_speech_duration := 0.25%float;
              vad_silence_timeout := 0.375%float |} overshoot_input).
  simpl. lia.
Defined.

(** An eighth of speech, a quiet quarter, then the eighth that completes
    the 250 ms. *)
Lemma candidates_survive_a_dip_witness :
  exists self',
    main_loop
      (advance_samples 1
         (append_pending voiced_eighth 0.125%float (stream sample_vad)))
      (as_input [(2%float, quiet_quarter)] ++ [(3%float, Frame voiced_eighth)])
    = Some self' /\
    _speech_started self' = true /\
    _speech_frames self' = [voiced_eighth] ++ [voiced_eighth] /\
    _event_ch self' =
      [] ++
      [ {| type := START_OF_SPEECH;
           samples_index := 1 + total_samples (as_input [(2%float, quiet_quarter)]);
           timestamp := 3%float;
           speech_duration := 0%float;
           silence_duration := 0%float;
           frames := [voiced_eighth] ++ [voiced_eighth] |} ].
Proof.
  apply (candidates_survive_a_dip
           (advance_samples 1
              (append_pending voiced_eighth 0.125%float (stream sample_vad)))
           [(2%float, quiet_quarter)] 3%float voiced_eighth).
  - reflexivity.
  - repeat constructor; vm_compute; reflexivity.
  - vm_compute. discriminate.
  - vm_compute. reflexivity.
Defined.

(** Two quiet quarters around a voiced one: half a second of silence in
    all against a 375 ms timeout, and the segment stays open. *)
Lemma broken_silence_keeps_segment_open_witness :
  exists self',
    main_loop speaking_sample
      (as_input [(2%float, quiet_quarter)]
       ++ (3%float, Frame voiced_quarter) :: as_input [(4%float, quiet_quarter)])
    = Some self' /\
    _event_ch self' = _event_ch speaking_sample /\
    _speech_started self' = true /\
    _speech_frames self' = _speech_frames speaking_sample ++ [voiced_quarter] /\
    _silence_accumulated self' = sum_durations (map snd [(4%float, quiet_quarter)]).
Proof.
  apply (broken_silence_keeps_segment_open speaking_sample
           [(2%float, quiet_quarter)] 3%float voiced_quarter
           [(4%float, quiet_quarter)]).
  - reflexivity.
  - repeat constructor; vm_compute; reflexivity.
  - vm_compute. discriminate.
  - intros [|j] Hj; [vm_compute; reflexivity | simpl in Hj; lia].
  - intros [|j] Hj; [vm_compute; reflexivity | simpl in Hj; lia].
Defined.

End VadMoreSamples.

Section SttMoreSamples.
Import Py Stt.

(** A 200 response whose plain-text body is [hello] between spaces. *)
Lemma transcript_becomes_the_alternative_witness :
  _recognize_impl sample_opts
    (fun _ => Responded {| status_code := 200; headers := ∅;
                           text := " hello "; json_body := None |})
    [] 0.5%float (Some "en"%string) 30%float =
  inr {| se_type := FINAL_TRANSCRIPT;
         se_request_id := "";
         alternatives := [ {| sd_text := "hello"; sd_language := "en" |} ];
         recognition_usage := 0.5%float |}.
Proof.
  destruct (transcript_becomes_the_alternative sample_opts
              (fun _ => Responded {| status_code := 200; headers := ∅;
                                     text := " hello "; json_body := None |})
              [] 0.5%float (Some "en"%string) 30%float
              {| status_code := 200; headers := ∅;
                 text := " hello "; json_body := None |} "hello")
    as [H _]; [reflexivity | reflexivity | reflexivity |].
  exact H.
Defined.

End SttMoreSamples.

Section RegistryMoreSamples.
Import Registry.

(** A room registered and unregistered on a new registry. *)
Lemma greetings_outlive_sessions_witness :
  _greeting_times
    (default new_registry
       (run_ops [Register "A" "u1" "Ann" None None None 0; Unregister "A"]
          new_registry))
  = _greeting_times new_registry.
Proof.
  destruct (greetings_outlive_sessions
              [Register "A" "u1" "Ann" None None None 0; Unregister "A"]
              new_registry
              (default new_registry
                 (run_ops [Register "A" "u1" "Ann" None None None 0;
                           Unregister "A"] new_registry)))
    as [H _]; [reflexivity|].
  exact H.
Defined.

(** The first room of a new registry. *)
Lemma active_count_follows_the_rooms_witness :
  active_count new_registry = length (list_sessions new_registry) /\
  exists session reg' e,
    register "A" "u1" "Ann" None None None 0 new_registry
    = Some (session, reg', e) /\
    active_count reg' = 1%nat.
Proof.
  destruct (active_count_follows_the_rooms new_registry "A" "u1" "Ann"
              None None None 0 eq_refl)
    as (H1 & (session & reg' & e & Hreg & Hcount) & _).
  split; [exact H1|]. exists session, reg', e. split; [exact Hreg|].
  exact Hcount.
Defined.

(** Registering and unregistering room [A] on a new registry. *)
Lemma register_then_unregister_witness :
  exists session reg1 e1 reg2 e2,
    register "A" "u1" "Ann" None None None 0 new_registry
    = Some (session, reg1, e1) /\
    unregister "A" reg1 = Some (Some session, reg2, e2) /\
    reg2 = new_registry.
Proof.
  destruct (register_then_unregister new_registry "A" "u1" "Ann"
              None None None 0 eq_refl)
    as (session & reg1 & e1 & reg2 & e2 & H1 & H2 & _ & _ & _ & H6).
  exists session, reg1, e1, reg2, e2. split; [exact H1|]. split; [exact H2|].
  apply H6. reflexivity.
Defined.

End RegistryMoreSamples.
